(** * warikan-calculator: balances, unit rounding and settlement plan

    A shallow embedding of [src/utils/settlement.ts] (with the record types
    of [src/types.ts]) and the properties of its three exported functions
    [calculateBalances], [roundBalancesToUnit] and [buildSettlementPlan].

    JavaScript numbers are modelled by the type [number]: the finite values
    are exact rationals ([Fin q]); [NaN], [Infinity] and [-Infinity] are
    kept as values of their own, because the code tests for them
    ([Number.isFinite]) and because every comparison with [NaN] is false.
    Binary rounding error, overflow and the sign of zero are not modelled.

    The last part covers the component that uses these functions
    ([src/App.tsx]): what its handlers do to the participants and the
    expenses, how [onSubmitExpense] turns a form into an expense, and the
    balances and the plan that the component shows. *)

From Stdlib Require Import QArith ZArith String List Bool Arith Lia Lqa.
From Stdlib Require Import Qround Qabs Qminmax.
From Stdlib Require DecimalString.
Import ListNotations.

Set Implicit Arguments.

(** ** JavaScript numbers *)

Module JS.

Inductive number : Type :=
| Fin (q : Q)
| Infinity
| NegInfinity
| NaN.

(** Representation-independent equality of numbers ([Qeq] on the finite
  ones); unlike [===] it relates [NaN] to itself. *)
Definition num_eq (a b : number) : Prop :=
match a, b with
| Fin x, Fin y => x == y
| Infinity, Infinity => True
| NegInfinity, NegInfinity => True
| NaN, NaN => True
| _, _ => False
end.

Definition Qeqb (x y : Q) : bool := Qeq_bool x y.
Definition Qltb (x y : Q) : bool := negb (Qle_bool y x).
Definition Qleb (x y : Q) : bool := Qle_bool x y.

(** [a === b] *)
Definition strict_eq (a b : number) : bool :=
match a, b with
| Fin x, Fin y => Qeqb x y
| Infinity, Infinity => true
| NegInfinity, NegInfinity => true
| _, _ => false
end.

(** [a !== b] *)
Definition strict_neq (a b : number) : bool := negb (strict_eq a b).

(** [a < b] *)
Definition lt (a b : number) : bool :=
match a, b with
| NaN, _ | _, NaN => false
| Fin x, Fin y => Qltb x y
| NegInfinity, NegInfinity => false
| NegInfinity, _ => true
| _, NegInfinity => false
| Infinity, _ => false
| Fin _, Infinity => true
end.

(** [a > b] *)
Definition gt (a b : number) : bool := lt b a.

(** [a <= b] *)
Definition le (a b : number) : bool :=
match a, b with
| NaN, _ | _, NaN => false
| Fin x, Fin y => Qleb x y
| NegInfinity, _ => true
| _, Infinity => true
| _, NegInfinity => false
| Infinity, Fin _ => false
end.

(** [a + b] *)
Definition add (a b : number) : number :=
match a, b with
| NaN, _ | _, NaN => NaN
| Fin x, Fin y => Fin (x + y)
| Infinity, NegInfinity | NegInfinity, Infinity => NaN
| Infinity, _ | _, Infinity => Infinity
| NegInfinity, _ | _, NegInfinity => NegInfinity
end.

(** [-a] *)
Definition opp (a : number) : number :=
match a with
| Fin x => Fin (- x)
| Infinity => NegInfinity
| NegInfinity => Infinity
| NaN => NaN
end.

(** [a - b] *)
Definition sub (a b : number) : number := add a (opp b).

(** The sign of a finite value, as a comparison with zero. *)
Definition Qsign (x : Q) : comparison := Qcompare x 0.

(** An infinity of the given sign; [Eq] stands for the product
  [Infinity * 0], which is [NaN]. *)
Definition signed_infinity (s : comparison) : number :=
match s with
| Gt => Infinity
| Lt => NegInfinity
| Eq => NaN
end.

(** [a * b] *)
Definition mul (a b : number) : number :=
match a, b with
| NaN, _ | _, NaN => NaN
| Fin x, Fin y => Fin (x * y)
| Infinity, Fin y | Fin y, Infinity => signed_infinity (Qsign y)
| NegInfinity, Fin y | Fin y, NegInfinity => signed_infinity (CompOpp (Qsign y))
| Infinity, Infinity | NegInfinity, NegInfinity => Infinity
| Infinity, NegInfinity | NegInfinity, Infinity => NegInfinity
end.

(** [a / b]; a zero divisor is taken as [+0]. *)
Definition div (a b : number) : number :=
match a, b with
| NaN, _ | _, NaN => NaN
| Fin x, Fin y =>
    if Qeqb y 0 then signed_infinity (Qsign x) else Fin (x / y)
| Fin _, _ => Fin 0
| Infinity, Fin y => if Qltb y 0 then NegInfinity else Infinity
| NegInfinity, Fin y => if Qltb y 0 then Infinity else NegInfinity
| _, _ => NaN
end.

(** [Math.round]: the nearest integer, a half going up (towards
  [+Infinity]); the non-finite values are returned as they are. *)
Definition Math_round (a : number) : number :=
match a with
| Fin x => Fin (inject_Z (Qfloor (x + (1 # 2))))
| _ => a
end.

(** [Math.abs] *)
Definition Math_abs (a : number) : number :=
match a with
| Fin x => Fin (Qabs x)
| Infinity | NegInfinity => Infinity
| NaN => NaN
end.

(** [Math.min] of two arguments. *)
Definition Math_min (a b : number) : number :=
match a, b with
| NaN, _ | _, NaN => NaN
| NegInfinity, _ | _, NegInfinity => NegInfinity
| Infinity, c | c, Infinity => c
| Fin x, Fin y => Fin (Qmin x y)
end.

(** [Number.isFinite] *)
Definition Number_isFinite (a : number) : bool :=
match a with
| Fin _ => true
| _ => false
end.

End JS.

Import JS.

(** ** Data model ([src/types.ts] and the types of [settlement.ts]) *)

Record Participant : Type := mkParticipant {
  id : string;
  name : string
}.

Record ExpenseShare : Type := mkExpenseShare {
  participantId : string;
  share_amount : number          (* [amount] of an [ExpenseShare] *)
}.

Record Expense : Type := mkExpense {
  expense_id : string;
  title : string;
  expense_amount : number;       (* [amount] of an [Expense] *)
  payerId : string;
  shares : list ExpenseShare
}.

Record SettlementEntry : Type := mkSettlementEntry {
  from : string;
  to : string;
  amount : number
}.

Record CalculatedBalance : Type := mkCalculatedBalance {
  participant : Participant;
  paid : number;
  shouldPay : number;
  diff : number
}.

(** [CalculatedBalance & { roundedDiff: number }]: the fields of the
    balance, copied by the spread [...balance], and the added field. *)
Record RoundedBalance : Type := mkRoundedBalance {
  balance : CalculatedBalance;
  roundedDiff : number
}.

Definition ROUNDING_UNIT : number := Fin 100.

(** ** Arrays *)

Section Arrays.
Variable A : Type.

(** [arr[i] = f(arr[i])] on an index that is in range; an index out
    of range is never written by the code below and leaves the list
    as it is. *)
Fixpoint modify_nth (i : nat) (f : A -> A) (l : list A) : list A :=
  match l, i with
  | [], _ => []
  | x :: t, O => f x :: t
  | x :: t, S j => x :: modify_nth j f t
  end.

(** [arr.reduce((best, x) => prefer(x, best) ? x : best)] without an
    initial value, on the array [first :: rest]: the accumulator is a
    reference to an element of the array, kept here as its index. *)
Fixpoint reduce_from (prefer : A -> A -> bool) (rest : list A)
         (i : nat) (best_i : nat) (best : A) : nat :=
  match rest with
  | [] => best_i
  | x :: t =>
      if prefer x best
      then reduce_from prefer t (S i) i x
      else reduce_from prefer t (S i) best_i best
  end.

Definition reduce_index (prefer : A -> A -> bool) (l : list A) : option nat :=
  match l with
  | [] => None
  | first :: rest => Some (reduce_from prefer rest 1 0 first)
  end.
End Arrays.

(** [numbers.reduce((sum, x) => sum + x, 0)] *)
Definition sum_numbers (l : list number) : number :=
  fold_left add l (Fin 0).

(** ** The ledger of [calculateBalances]

    [new Map<string, {participant, paid, shouldPay}>()]: the keys are kept
    in the order of their first insertion, which is the order in which
    [ledger.values()] yields the entries. *)

Record LedgerEntry : Type := mkLedgerEntry {
  entry_participant : Participant;
  entry_paid : number;
  entry_shouldPay : number
}.

Definition Ledger : Type := list (string * LedgerEntry).

(** [ledger.get(key)] *)
Fixpoint ledger_get (key : string) (ledger : Ledger) : option LedgerEntry :=
  match ledger with
  | [] => None
  | (k, v) :: rest => if String.eqb k key then Some v else ledger_get key rest
  end.

(** [ledger.set(key, value)]: a key that is present keeps its place and
    takes the new value, a new key goes to the end. *)
Fixpoint ledger_set (key : string) (value : LedgerEntry) (ledger : Ledger) : Ledger :=
  match ledger with
  | [] => [(key, value)]
  | (k, v) :: rest =>
      if String.eqb k key then (k, value) :: rest
      else (k, v) :: ledger_set key value rest
  end.

(** An assignment to a field of the object that [ledger.get(key)]
    returned: the entry stored under [key] changes in place. *)
Fixpoint ledger_modify (key : string) (f : LedgerEntry -> LedgerEntry)
         (ledger : Ledger) : Ledger :=
  match ledger with
  | [] => []
  | (k, v) :: rest =>
      if String.eqb k key then (k, f v) :: rest
      else (k, v) :: ledger_modify key f rest
  end.

(** [Array.from(ledger.values())] *)
Definition ledger_values (ledger : Ledger) : list LedgerEntry := map snd ledger.

(** ** [roundToUnit] *)

Definition roundToUnit (value unit : number) : number :=
  if negb (Number_isFinite value) then Fin 0
  else mul (Math_round (div value unit)) unit.

(** ** [calculateBalances] *)

(** [participants.forEach(p => ledger.set(p.id, {participant: p, paid: 0, shouldPay: 0}))] *)
Definition register_participant (ledger : Ledger) (p : Participant) : Ledger :=
  ledger_set (id p) (mkLedgerEntry p (Fin 0) (Fin 0)) ledger.

Definition add_paid (x : number) (e : LedgerEntry) : LedgerEntry :=
  mkLedgerEntry (entry_participant e) (add (entry_paid e) x) (entry_shouldPay e).

Definition add_shouldPay (x : number) (e : LedgerEntry) : LedgerEntry :=
  mkLedgerEntry (entry_participant e) (entry_paid e) (add (entry_shouldPay e) x).

(** The body of [expense.shares.forEach]. *)
Definition process_share (ledger : Ledger) (share : ExpenseShare) : Ledger :=
  match ledger_get (participantId share) ledger with
  | None => ledger
  | Some _ => ledger_modify (participantId share) (add_shouldPay (share_amount share)) ledger
  end.

(** The body of [expenses.forEach]. *)
Definition process_expense (ledger : Ledger) (expense : Expense) : Ledger :=
  if le (expense_amount expense) (Fin 0) then ledger
  else
    let ledger1 :=
      match ledger_get (payerId expense) ledger with
      | Some _ => ledger_modify (payerId expense) (add_paid (expense_amount expense)) ledger
      | None => ledger
      end in
    fold_left process_share (shares expense) ledger1.

(** The ledger after both [forEach] loops. *)
Definition accumulate (participants : list Participant) (expenses : list Expense) : Ledger :=
  fold_left process_expense expenses
            (fold_left register_participant participants []).

(** The callback of the final [map]. *)
Definition finalize (entry : LedgerEntry) : CalculatedBalance :=
  let paid := Math_round (entry_paid entry) in
  let shouldPay := Math_round (entry_shouldPay entry) in
  let diff := sub paid shouldPay in
  mkCalculatedBalance (entry_participant entry) paid shouldPay diff.

Definition calculateBalances (participants : list Participant)
           (expenses : list Expense) : list CalculatedBalance :=
  map finalize (ledger_values (accumulate participants expenses)).

(** ** [roundBalancesToUnit] *)

(** [target.roundedDiff -= totalRounded] *)
Definition subtract_drift (totalRounded : number) (target : RoundedBalance) : RoundedBalance :=
  mkRoundedBalance (balance target) (sub (roundedDiff target) totalRounded).

(** The [map] of the first statement: every balance with its naively
    rounded difference. *)
Definition round_each (balances : list CalculatedBalance) (unit : number) : list RoundedBalance :=
  map (fun balance => mkRoundedBalance balance (roundToUnit (diff balance) unit)) balances.

Definition total_rounded (rounded : list RoundedBalance) : number :=
  fold_left (fun sum balance => add sum (roundedDiff balance)) rounded (Fin 0).

(** The two callbacks of [reduce]: the element replaces the accumulator
    when it is strictly larger (strictly smaller). *)
Definition larger (balance max : RoundedBalance) : bool :=
  gt (roundedDiff balance) (roundedDiff max).

Definition smaller (balance min : RoundedBalance) : bool :=
  lt (roundedDiff balance) (roundedDiff min).

Definition adjust_target (prefer : RoundedBalance -> RoundedBalance -> bool)
           (totalRounded : number) (rounded : list RoundedBalance) : list RoundedBalance :=
  match reduce_index prefer rounded with
  | Some target => modify_nth target (subtract_drift totalRounded) rounded
  | None => rounded
  end.

(** [unit] is written out at every call; the source gives it the default
    value [ROUNDING_UNIT]. *)
Definition roundBalancesToUnit (balances : list CalculatedBalance) (unit : number)
  : list RoundedBalance :=
  let rounded := round_each balances unit in
  let totalRounded := total_rounded rounded in
  if strict_neq totalRounded (Fin 0) && (0 <? length rounded)%nat then
    if gt totalRounded (Fin 0)
    then adjust_target larger totalRounded rounded
    else adjust_target smaller totalRounded rounded
  else rounded.

(** ** [buildSettlementPlan] *)

(** The objects [{ id, amount }] of the arrays [debtors] and [creditors]. *)
Record Account : Type := mkAccount {
  account_id : string;
  account_amount : number
}.

(** The callback of [balances.forEach], on the pair of arrays. *)
Definition classify (lists : list Account * list Account) (b : RoundedBalance)
  : list Account * list Account :=
  let (debtors, creditors) := lists in
  if gt (roundedDiff b) (Fin 0) then
    (debtors, creditors ++ [mkAccount (id (participant (balance b))) (roundedDiff b)])
  else if lt (roundedDiff b) (Fin 0) then
    (debtors ++ [mkAccount (id (participant (balance b))) (Math_abs (roundedDiff b))],
     creditors)
  else lists.

(** The variables of the function while the loop runs. *)
Record PlanState : Type := mkPlanState {
  debtors : list Account;
  creditors : list Account;
  settlements : list SettlementEntry;
  debtorIndex : nat;
  creditorIndex : nat
}.

Definition initial_state (balances : list RoundedBalance) : PlanState :=
  let (debtors, creditors) := fold_left classify balances ([], []) in
  mkPlanState debtors creditors [] 0 0.

(** [account.amount -= amount] *)
Definition withdraw (amount : number) (account : Account) : Account :=
  mkAccount (account_id account) (sub (account_amount account) amount).

(** [debtorIndex < debtors.length && creditorIndex < creditors.length] *)
Definition loop_cond (st : PlanState) : bool :=
  (debtorIndex st <? length (debtors st))%nat
  && (creditorIndex st <? length (creditors st))%nat.

(** One pass through the body of the [while] loop. Both indices are in
    range when the condition holds; the last case is never taken then. *)
Definition loop_body (st : PlanState) : PlanState :=
  match nth_error (debtors st) (debtorIndex st),
        nth_error (creditors st) (creditorIndex st) with
  | Some debtor, Some creditor =>
      let amount := Math_min (account_amount debtor) (account_amount creditor) in
      let settlements1 :=
        if gt amount (Fin 0)
        then settlements st ++ [mkSettlementEntry (account_id debtor) (account_id creditor) amount]
        else settlements st in
      let debtors1 := modify_nth (debtorIndex st) (withdraw amount) (debtors st) in
      let creditors1 := modify_nth (creditorIndex st) (withdraw amount) (creditors st) in
      let debtorIndex1 :=
        if strict_eq (sub (account_amount debtor) amount) (Fin 0)
        then S (debtorIndex st) else debtorIndex st in
      let creditorIndex1 :=
        if strict_eq (sub (account_amount creditor) amount) (Fin 0)
        then S (creditorIndex st) else creditorIndex st in
      mkPlanState debtors1 creditors1 settlements1 debtorIndex1 creditorIndex1
  | _, _ => st
  end.

(** The state after at most [n] passes: the loop stops at the first state
    in which its condition is false. *)
Fixpoint iterate (n : nat) (st : PlanState) : PlanState :=
  match n with
  | O => st
  | S k => if loop_cond st then iterate k (loop_body st) else st
  end.

(** Every pass that is not the last of a run that ends moves an index
    forward, so [debtors.length + creditors.length] passes are enough for
    the loop to end if it ends at all ([loop_never_ends] below): [None]
    stands for the call that does not return. *)
Definition passes (st : PlanState) : nat :=
  length (debtors st) + length (creditors st).

Definition buildSettlementPlan (balances : list RoundedBalance)
  : option (list SettlementEntry) :=
  let st := iterate (passes (initial_state balances)) (initial_state balances) in
  if loop_cond st then None else Some (settlements st).

(** ** More of JavaScript's numbers, for [App.tsx] *)

(** [Math.max] of two arguments. *)
Definition Math_max (a b : number) : number :=
  match a, b with
  | NaN, _ | _, NaN => NaN
  | Infinity, _ | _, Infinity => Infinity
  | NegInfinity, c | c, NegInfinity => c
  | Fin x, Fin y => Fin (Qmax x y)
  end.

(** [Math.floor] *)
Definition Math_floor (a : number) : number :=
  match a with
  | Fin x => Fin (inject_Z (Qfloor x))
  | _ => a
  end.

(** [a || b] on numbers: [0] and [NaN] are the numbers that count as
    false. *)
Definition or_else (a b : number) : number :=
  match a with
  | NaN => b
  | Fin x => if Qeqb x 0 then b else a
  | _ => a
  end.

(** [array.length] as a number. *)
Definition length_number (A : Type) (l : list A) : number :=
  Fin (inject_Z (Z.of_nat (length l))).

(** The text of a counter in a template literal. *)
Definition counter_text (n : nat) : string :=
  DecimalString.NilEmpty.string_of_uint (Nat.to_uint n).

(** ** [Map<string, number>] *)

Section StringMaps.
Variable V : Type.

(** [map.get(key)] *)
Fixpoint Map_get (key : string) (m : list (string * V)) : option V :=
  match m with
  | [] => None
  | (k, v) :: rest => if String.eqb k key then Some v else Map_get key rest
  end.

(** [map.set(key, value)]: a key that is present keeps its place. *)
Fixpoint Map_set (key : string) (value : V) (m : list (string * V)) : list (string * V) :=
  match m with
  | [] => [(key, value)]
  | (k, v) :: rest =>
      if String.eqb k key then (k, value) :: rest
      else (k, v) :: Map_set key value rest
  end.

(** [Array.from(map.values())] *)
Definition Map_values (m : list (string * V)) : list V := map snd m.

End StringMaps.

(** ** The [buildSettlementPlan] that reads [diff]

    The other copy of [settlement.ts] has no rounding step: its
    [buildSettlementPlan] takes the balances of [calculateBalances] and
    reads [diff] where the copy above reads [roundedDiff]. The loop is the
    same, statement by statement. [App.tsx] passes the balances of
    [calculateBalances] as they are, which is what this copy takes; the
    [settlements] of the component below are stated with it. *)

Module Unrounded.

Definition classify (lists : list Account * list Account) (b : CalculatedBalance)
  : list Account * list Account :=
  let (debtors, creditors) := lists in
  if gt (diff b) (Fin 0) then
    (debtors, creditors ++ [mkAccount (id (participant b)) (diff b)])
  else if lt (diff b) (Fin 0) then
    (debtors ++ [mkAccount (id (participant b)) (Math_abs (diff b))], creditors)
  else lists.

Definition initial_state (balances : list CalculatedBalance) : PlanState :=
  let (debtors, creditors) := fold_left classify balances ([], []) in
  mkPlanState debtors creditors [] 0 0.

Definition buildSettlementPlan (balances : list CalculatedBalance)
  : option (list SettlementEntry) :=
  let st := iterate (passes (initial_state balances)) (initial_state balances) in
  if loop_cond st then None else Some (settlements st).

End Unrounded.

(** ** [App.tsx]: the values of the expense form *)

Module Form.

Record ShareInput : Type := mkShareInput {
  participantId : string;
  included : bool;
  fixedAmount : string
}.

Record ExpenseFormValues : Type := mkExpenseFormValues {
  title : string;
  amount : string;
  payerId : string;
  shares : list ShareInput
}.

End Form.

Definition createExpenseFormDefaults : Form.ExpenseFormValues :=
  Form.mkExpenseFormValues "" "" "" [].

(** ** [App.tsx]: the handlers of the component

    The state of the component is the two [useState] arrays and the two
    counters kept in refs. What a handler does to them is modelled; what it
    asks of the form library (errors shown, fields appended or removed) is
    not, except for the values that [onSubmitExpense] hands to
    [resetExpenseForm]. [createId()] draws a random id: the id drawn is an
    argument of the handlers that call it. [trim] and [Number] stand for
    [String.prototype.trim] and for the conversion [Number(text)]. *)

Module App.

Record State : Type := mkState {
  participants : list Participant;
  expenses : list Expense;
  participantCounter : nat;
  expenseCounter : nat
}.

(** What [onSubmitExpense] ends with: [setError(field, { message })] and
    [return], or the new expense and the values the form is reset to. *)
Inductive Submission : Type :=
| Rejected (field message : string)
| Accepted (newExpense : Expense) (resetValues : Form.ExpenseFormValues).

Section Handlers.
Variable trim : string -> string.
Variable Number : string -> number.

Definition handleParticipantSubmit (name : string) (newId : string) (st : State) : State :=
  let trimmed := trim name in
  let finalName :=
    if negb (String.eqb trimmed "") then trimmed
    else ("参加者" ++ counter_text (participantCounter st))%string in
  let newParticipant := mkParticipant newId finalName in
  mkState (participants st ++ [newParticipant]) (expenses st)
          (S (participantCounter st)) (expenseCounter st).

(** The callback of [prev.reduce] in [handleRemoveParticipant]. *)
Definition drop_participant (pid : string) (acc : list Expense) (expense : Expense)
  : list Expense :=
  if String.eqb (payerId expense) pid then acc
  else
    let filteredShares :=
      filter (fun share => negb (String.eqb (participantId share) pid)) (shares expense) in
    if (length filteredShares =? 0)%nat then acc
    else acc ++ [mkExpense (expense_id expense) (title expense) (expense_amount expense)
                           (payerId expense) filteredShares].

Definition handleRemoveParticipant (pid : string) (st : State) : State :=
  let updatedParticipants :=
    filter (fun participant => negb (String.eqb (id participant) pid)) (participants st) in
  mkState updatedParticipants
          (fold_left (drop_participant pid) (expenses st) [])
          (participantCounter st) (expenseCounter st).

(** The callback of [includedShares.map] that makes [fixedEntries]. *)
Definition fixed_entry (share : Form.ShareInput) : ExpenseShare :=
  let raw := trim (Form.fixedAmount share) in
  let parsed :=
    if String.eqb raw "" then Fin 0
    else Math_max (Fin 0) (or_else (Math_round (Number raw)) (Fin 0)) in
  mkExpenseShare (Form.participantId share) parsed.

(** The callback of [flexibleIds.forEach], on the map and the variable
    [extra]. *)
Definition assign_flexible (baseShare : number)
           (state : list (string * number) * number) (participantId : string)
  : list (string * number) * number :=
  let (shareAmounts, extra) := state in
  if gt extra (Fin 0)
  then (Map_set participantId (add baseShare (Fin 1)) shareAmounts, sub extra (Fin 1))
  else (Map_set participantId baseShare shareAmounts, extra).

(** [onSubmitExpense] from [fixedEntries] to the filled map: the message
    of the error, or [shareAmounts]. *)
Definition allocate (amount : number) (fixedEntries : list ExpenseShare)
  : string + list (string * number) :=
  let totalFixed := sum_numbers (map share_amount fixedEntries) in
  if gt totalFixed amount then inl "固定額の合計が支出額を超えています"%string
  else
    let flexibleIds :=
      map participantId
          (filter (fun entry => strict_eq (share_amount entry) (Fin 0)) fixedEntries) in
    let remainder := sub amount totalFixed in
    let shareAmounts :=
      fold_left (fun m entry => Map_set (participantId entry) (share_amount entry) m)
                (filter (fun entry => gt (share_amount entry) (Fin 0)) fixedEntries) [] in
    if (length flexibleIds =? 0)%nat then
      if strict_neq remainder (Fin 0)
      then inl "固定額の合計が支出額と一致していません"%string
      else inr shareAmounts
    else
      if lt remainder (Fin 0) then inl "固定額の合計が支出額を超えています"%string
      else
        let baseShare := Math_floor (div remainder (length_number flexibleIds)) in
        let extra := sub remainder (mul baseShare (length_number flexibleIds)) in
        inr (fst (fold_left (assign_flexible baseShare) flexibleIds (shareAmounts, extra))).

(** [onSubmitExpense] up to the calls of [setExpenses] and
    [resetExpenseForm]. *)
Definition submission (values : Form.ExpenseFormValues) (expenseCounter : nat)
           (newId : string) : Submission :=
  let amount := Math_round (Number (Form.amount values)) in
  if negb (Number_isFinite amount) || le amount (Fin 0)
  then Rejected "amount" "金額は1円以上の数値で入力してください"
  else if String.eqb (Form.payerId values) ""
  then Rejected "payerId" "立替者を選択してください"
  else
    let includedShares := filter Form.included (Form.shares values) in
    if (length includedShares =? 0)%nat
    then Rejected "shares" "少なくとも1名の負担者を選択してください"
    else
      match allocate amount (map fixed_entry includedShares) with
      | inl message => Rejected "shares" message
      | inr shareAmounts =>
          let allocatedTotal := sum_numbers (Map_values shareAmounts) in
          if strict_neq allocatedTotal amount
          then Rejected "shares" "負担額の計算に失敗しました。入力内容を確認してください。"
          else
            let trimmedTitle := trim (Form.title values) in
            let title :=
              if String.eqb trimmedTitle ""
              then ("支出" ++ counter_text expenseCounter)%string
              else trimmedTitle in
            Accepted
              (mkExpense newId title amount (Form.payerId values)
                 (map (fun share =>
                         mkExpenseShare
                           (Form.participantId share)
                           (match Map_get (Form.participantId share) shareAmounts with
                            | Some value => value
                            | None => Fin 0
                            end))
                      includedShares))
              (Form.mkExpenseFormValues
                 "" "" (Form.payerId values)
                 (map (fun share =>
                         Form.mkShareInput (Form.participantId share)
                                           (Form.included share) "")
                      (Form.shares values)))
      end.

Definition onSubmitExpense (values : Form.ExpenseFormValues) (newId : string) (st : State)
  : State * Submission :=
  match submission values (expenseCounter st) newId with
  | Rejected field message => (st, Rejected field message)
  | Accepted newExpense resetValues =>
      (mkState (participants st) (newExpense :: expenses st)
               (participantCounter st) (S (expenseCounter st)),
       Accepted newExpense resetValues)
  end.

End Handlers.

Definition handleRemoveExpense (eid : string) (st : State) : State :=
  mkState (participants st)
          (filter (fun expense => negb (String.eqb (expense_id expense) eid)) (expenses st))
          (participantCounter st) (expenseCounter st).


Definition balances (st : State) : list CalculatedBalance :=
  calculateBalances (participants st) (expenses st).

Definition settlements (st : State) : option (list SettlementEntry) :=
  Unrounded.buildSettlementPlan (balances st).

Definition findParticipantName (st : State) (pid : string) : string :=
  match find (fun p => String.eqb (id p) pid) (participants st) with
  | Some p => name p
  | None => "不明"
  end.

Definition initial : State := mkState [] [] 1 1.

End App.

(** ** Sample runs *)

Module Samples.
Open Scope string_scope.
Definition A := mkParticipant "A" "Alice".
Definition B := mkParticipant "B" "Bob".
Definition C := mkParticipant "C" "Carol".
Definition dinner :=
  mkExpense "e1" "dinner" (Fin 3000) "A"
    [mkExpenseShare "A" (Fin 1000); mkExpenseShare "B" (Fin 1000);
     mkExpenseShare "C" (Fin 1000)].
Definition bal (p : Participant) (d : Q) : CalculatedBalance :=
  mkCalculatedBalance p (Fin 0) (Fin 0) (Fin d).
End Samples.

(** Sample values of the form. *)
Module FormSamples.
Open Scope string_scope.

(** [Number(text)] on a text of decimal digits; the empty text is [0]. *)
Fixpoint digits (s : string) (acc : N) : option N :=
  match s with
  | EmptyString => Some acc
  | String c t =>
      let n := Ascii.N_of_ascii c in
      if ((48 <=? n) && (n <=? 57))%N then digits t (10 * acc + (n - 48))%N else None
  end.

Definition Number_of_digits (s : string) : number :=
  match digits s 0 with
  | Some n => Fin (inject_Z (Z.of_N n))
  | None => NaN
  end.

(** Texts without white space at their ends are their own [trim]. *)
Definition no_trim (s : string) : string := s.

Definition lunch : Form.ExpenseFormValues :=
  Form.mkExpenseFormValues "lunch" "1000" "A"
    [Form.mkShareInput "A" true "400"; Form.mkShareInput "B" true "";
     Form.mkShareInput "C" true ""; Form.mkShareInput "D" false ""].

End FormSamples.

(** * Vocabulary of the properties *)

(** ** Finite values and sums *)

(** The sum of a list of rationals. *)
Definition Qsum (l : list Q) : Q := fold_right Qplus 0 l.

(** The finite value of a number ([0] for the others). *)
Definition Qvalue (a : number) : Q :=
  match a with
  | Fin q => q
  | _ => 0
  end.

Definition all_finite (l : list number) : Prop :=
  Forall (fun a => Number_isFinite a = true) l.

(** [round(d / u) * u] on finite values. *)
Definition rounded_value (d u : Q) : Q :=
  inject_Z (Qfloor (d / u + (1 # 2))) * u.



(** ** The ledger, entry by entry *)

(** The same change [g key] made to every entry of the ledger. *)
Definition ledger_map (g : string -> LedgerEntry -> LedgerEntry) (ledger : Ledger) : Ledger :=
  map (fun kv => (fst kv, g (fst kv) (snd kv))) ledger.

Definition ledger_keys (ledger : Ledger) : list string := map fst ledger.

(** What one share, one expense and a list of expenses do to the entry
    stored under [key]. *)
Definition share_effect (key : string) (entry : LedgerEntry) (share : ExpenseShare)
  : LedgerEntry :=
  if String.eqb key (participantId share)
  then add_shouldPay (share_amount share) entry else entry.

Definition expense_effect (key : string) (entry : LedgerEntry) (expense : Expense)
  : LedgerEntry :=
  if le (expense_amount expense) (Fin 0) then entry
  else fold_left (share_effect key) (shares expense)
                 (if String.eqb key (payerId expense)
                  then add_paid (expense_amount expense) entry else entry).

Definition expenses_effect (expenses : list Expense) (key : string) (entry : LedgerEntry)
  : LedgerEntry :=
  fold_left (expense_effect key) expenses entry.

(** ** Balances in closed form *)

(** The expenses that the guard [expense.amount <= 0] lets through, and
    the expenses with [amount > 0]. *)
Definition counted (expense : Expense) : bool :=
  negb (le (expense_amount expense) (Fin 0)).


(** The amounts of the selected expenses that [pid] paid, and the amounts
    of the shares of the selected expenses that name [pid], in the order
    of the input. *)
Definition paid_amounts (select : Expense -> bool) (expenses : list Expense)
           (pid : string) : list number :=
  map expense_amount
      (filter (fun e => select e && String.eqb pid (payerId e)) expenses).

Definition owed_amounts (select : Expense -> bool) (expenses : list Expense)
           (pid : string) : list number :=
  map share_amount
      (filter (fun s => String.eqb pid (participantId s))
              (flat_map shares (filter select expenses))).

Definition balance_of (select : Expense -> bool) (expenses : list Expense)
           (p : Participant) : CalculatedBalance :=
  let paid := Math_round (sum_numbers (paid_amounts select expenses (id p))) in
  let shouldPay := Math_round (sum_numbers (owed_amounts select expenses (id p))) in
  mkCalculatedBalance p paid shouldPay (sub paid shouldPay).

(** The nearest integer with a half going away from zero, in the words of
    the specification. *)
Definition round_half_away_from_zero (q : Q) : Z :=
  if Qle_bool 0 q then Qfloor (q + (1 # 2)) else (- Qfloor (- q + (1 # 2)))%Z.

(** ** Differences that are not finite, shares of unknown participants *)

(** The correction of the drift, on the rounded differences alone. *)
Definition close_drift (naive : list number) : list number :=
  let total := sum_numbers naive in
  let adjust (prefer : number -> number -> bool) :=
    match reduce_index prefer naive with
    | Some target => modify_nth target (fun x => sub x total) naive
    | None => naive
    end in
  if strict_neq total (Fin 0) && (0 <? length naive)%nat then
    if gt total (Fin 0) then adjust (fun x max => gt x max)
    else adjust (fun x min => lt x min)
  else naive.

(** A balance whose [diff] is not finite, with [0] in its place. *)
Definition finite_diff_or_zero (b : CalculatedBalance) : CalculatedBalance :=
  if Number_isFinite (diff b) then b
  else mkCalculatedBalance (participant b) (paid b) (shouldPay b) (Fin 0).

(** An expense with other shares. *)
Definition with_shares (expense : Expense) (ss : list ExpenseShare) : Expense :=
  mkExpense (expense_id expense) (title expense) (expense_amount expense)
            (payerId expense) ss.

(** ** The loop of [buildSettlementPlan], seen from its two cursors

    What the loop will still read is the part of [debtors] from
    [debtorIndex] on and the part of [creditors] from [creditorIndex] on. *)

Record View : Type := mkView {
  pending_debtors : list Account;
  pending_creditors : list Account;
  emitted : list SettlementEntry
}.

Definition view (st : PlanState) : View :=
  mkView (skipn (debtorIndex st) (debtors st))
         (skipn (creditorIndex st) (creditors st))
         (settlements st).

Definition view_cond (v : View) : bool :=
  match pending_debtors v, pending_creditors v with
  | _ :: _, _ :: _ => true
  | _, _ => false
  end.

(** What is left of the list [account :: rest] after [amount] was taken
    from [account]. *)
Definition after_withdrawal (amount : number) (account : Account) (rest : list Account)
  : list Account :=
  if strict_eq (sub (account_amount account) amount) (Fin 0)
  then rest else withdraw amount account :: rest.

Definition view_step (v : View) : View :=
  match pending_debtors v, pending_creditors v with
  | debtor :: ds, creditor :: cs =>
      let amount := Math_min (account_amount debtor) (account_amount creditor) in
      mkView (after_withdrawal amount debtor ds)
             (after_withdrawal amount creditor cs)
             (if gt amount (Fin 0)
              then emitted v ++ [mkSettlementEntry (account_id debtor) (account_id creditor) amount]
              else emitted v)
  | _, _ => v
  end.

Fixpoint view_iterate (n : nat) (v : View) : View :=
  match n with
  | O => v
  | S k => if view_cond v then view_iterate k (view_step v) else v
  end.

(** ** Amounts under the cursors *)

Definition positive (a : number) : Prop := gt a (Fin 0) = true.

Definition positive_account (account : Account) : Prop :=
  positive (account_amount account).

(** [a] is at least the finite amount [m] / is exactly [m]. *)
Definition covers (a : number) (m : Q) : Prop :=
  a = Infinity \/ exists x, a = Fin x /\ m <= x.

Definition exactly (a : number) (m : Q) : Prop :=
  exists x, a = Fin x /\ x == m.

Definition infinite_account (account : Account) : bool :=
  match account_amount account with
  | Infinity => true
  | _ => false
  end.

Definition has_infinite (l : list Account) : bool := existsb infinite_account l.

Definition view_size (v : View) : nat :=
  length (pending_debtors v) + length (pending_creditors v).

(** Both accounts under the cursors hold [NaN]: what is left of
    [Infinity - Infinity]. *)
Definition dead (v : View) : Prop :=
  exists d ds c cs,
    pending_debtors v = d :: ds /\ pending_creditors v = c :: cs
    /\ account_amount d = NaN /\ account_amount c = NaN.

Definition good (v : View) : Prop :=
  Forall positive_account (pending_debtors v)
  /\ Forall positive_account (pending_creditors v).

(** ** The two arrays at the start of the loop *)

Definition is_creditor (b : RoundedBalance) : bool := gt (roundedDiff b) (Fin 0).

Definition is_debtor (b : RoundedBalance) : bool := lt (roundedDiff b) (Fin 0).

Definition creditor_account (b : RoundedBalance) : Account :=
  mkAccount (id (participant (balance b))) (roundedDiff b).

Definition debtor_account (b : RoundedBalance) : Account :=
  mkAccount (id (participant (balance b))) (Math_abs (roundedDiff b)).

Definition initial_debtors (balances : list RoundedBalance) : list Account :=
  map debtor_account (filter is_debtor balances).

Definition initial_creditors (balances : list RoundedBalance) : list Account :=
  map creditor_account (filter is_creditor balances).

Definition initial_view (balances : list RoundedBalance) : View :=
  mkView (initial_debtors balances) (initial_creditors balances) [].

(** No participant id is carried both by a balance with a negative
    [roundedDiff] and by a balance with a positive one. *)
Definition no_id_on_both_sides (balances : list RoundedBalance) : Prop :=
  forall b1 b2,
    In b1 balances -> In b2 balances ->
    is_debtor b1 = true -> is_creditor b2 = true ->
    id (participant (balance b1)) <> id (participant (balance b2)).

(** ** What holds after every pass *)

Definition count_inv (N : nat) (v : View) : Prop :=
  (good v
   /\ (length (emitted v) + view_size v <= N)%nat
   /\ (length (emitted v) + 1 <= N)%nat)
  \/ (dead v /\ (length (emitted v) + 1 <= N)%nat).

Definition ids_inv (debtor_ids creditor_ids : list string) (v : View) : Prop :=
  (forall a, In a (pending_debtors v) -> In (account_id a) debtor_ids)
  /\ (forall a, In a (pending_creditors v) -> In (account_id a) creditor_ids)
  /\ (forall e, In e (emitted v) ->
                In (from e) debtor_ids /\ In (to e) creditor_ids
                /\ gt (amount e) (Fin 0) = true).

Definition account_value (a : Account) : Q := Qvalue (account_amount a).

Definition entry_value (e : SettlementEntry) : Q := Qvalue (amount e).

(** The finite amounts of the accounts, of the entries sent and of the
    entries received by the participants that [sel] selects. *)
Definition selected_sum (sel : string -> bool) (l : list Account) : Q :=
  Qsum (map account_value (filter (fun a => sel (account_id a)) l)).

Definition sent_sum (sel : string -> bool) (es : list SettlementEntry) : Q :=
  Qsum (map entry_value (filter (fun e => sel (from e)) es)).

Definition received_sum (sel : string -> bool) (es : list SettlementEntry) : Q :=
  Qsum (map entry_value (filter (fun e => sel (to e)) es)).

Definition finite_entry (e : SettlementEntry) : Prop :=
  exists m, amount e = Fin m /\ 0 < m.

Record accounted (ds0 cs0 : list Account) (v : View) : Prop := mkAccounted {
  acc_good : good v;
  acc_entries : Forall finite_entry (emitted v);
  acc_infinite_debtors : has_infinite (pending_debtors v) = has_infinite ds0;
  acc_infinite_creditors : has_infinite (pending_creditors v) = has_infinite cs0;
  acc_debtors :
    has_infinite ds0 = false ->
    forall sel, selected_sum sel (pending_debtors v) + sent_sum sel (emitted v)
                == selected_sum sel ds0;
  acc_creditors :
    has_infinite cs0 = false ->
    forall sel, selected_sum sel (pending_creditors v) + received_sum sel (emitted v)
                == selected_sum sel cs0
}.


(** ** Applying a plan to the balances *)





Definition balance_id (b : RoundedBalance) : string := id (participant (balance b)).


(** ** Multiples of the unit *)


(** ** Pairs of a plan *)

(** Who pays whom in an entry. *)
Definition pair_of (e : SettlementEntry) : string * string := (from e, to e).

(** Every entry emitted so far has its payer or its receiver behind the
    cursors. *)
Definition separated (v : View) : Prop :=
  forall e, In e (emitted v) ->
    ~ In (from e) (map account_id (pending_debtors v))
    \/ ~ In (to e) (map account_id (pending_creditors v)).

Definition pairs_inv (v : View) : Prop :=
  NoDup (map account_id (pending_debtors v))
  /\ NoDup (map account_id (pending_creditors v))
  /\ NoDup (map pair_of (emitted v))
  /\ separated v.


(** ** Ids and amounts of [calculateBalances] *)



(** The last participant of the list that carries the id [pid]. *)
Definition last_with_id (pid : string) (participants : list Participant) : option Participant :=
  find (fun p => String.eqb (id p) pid) (rev participants).

Definition new_entry (p : Participant) : LedgerEntry := mkLedgerEntry p (Fin 0) (Fin 0).




(** The payer and the holders of the shares are participants. *)
Definition known_ids (participants : list Participant) (e : Expense) : Prop :=
  In (payerId e) (map id participants)
  /\ forall s, In s (shares e) -> In (participantId s) (map id participants).


(** ** The balances as the component plans them *)

(** A balance of [calculateBalances] as the planner above reads it: with
    its [diff] in the place of [roundedDiff]. *)
Definition unrounded (b : CalculatedBalance) : RoundedBalance :=
  mkRoundedBalance b (diff b).


(** ** What a removal keeps *)

(** The shares of an expense that are not held by [pid]. *)
Definition shares_of_others (pid : string) (e : Expense) : list ExpenseShare :=
  filter (fun share => negb (String.eqb (participantId share) pid)) (shares e).

(** The expenses that [handleRemoveParticipant] keeps: not paid by [pid],
    and with a share of somebody else. *)
Definition survives (pid : string) (e : Expense) : bool :=
  negb (String.eqb (payerId e) pid)
  && negb (length (shares_of_others pid e) =? 0)%nat.

(** [{ ...expense, shares: filteredShares }] *)
Definition without_shares_of (pid : string) (e : Expense) : Expense :=
  mkExpense (expense_id e) (title e) (expense_amount e) (payerId e)
            (shares_of_others pid e).


(** ** What the form is turned into *)

(** What [fixedEntries] can hold as an amount: a whole number that is not
    negative, or [Infinity]. *)
Definition whole (a : number) : Prop :=
  exists z : Z, (0 <= z)%Z /\ num_eq a (Fin (inject_Z z)).






(** [shareAmounts.get(id) ?? 0] *)
Definition allotted (shareAmounts : list (string * number)) (pid : string) : number :=
  match Map_get pid shareAmounts with
  | Some value => value
  | None => Fin 0
  end.


(** ** Signs and whole numbers *)

(** A number that is not negative: [NaN] and [Infinity] among them. *)
Definition never_negative (a : number) : Prop :=
  a = NaN \/ a = Infinity \/ exists q, a = Fin q /\ 0 <= q.

(** What [Math.round] returns: an integer, or the value that was not
    finite. *)
Definition rounded (a : number) : Prop :=
  Number_isFinite a = false \/ exists z : Z, a = Fin (inject_Z z).

(** * Facts about numbers *)

Section NumberFacts.

Lemma Qeqb_true (x y : Q) : Qeqb x y = true <-> x == y.
Proof. apply Qeq_bool_iff. Qed.

Lemma Qleb_true (x y : Q) : Qleb x y = true <-> x <= y.
Proof. apply Qle_bool_iff. Qed.

Lemma Qltb_true (x y : Q) : Qltb x y = true <-> x < y.
Proof.
  unfold Qltb. rewrite negb_true_iff.
  split; intro H.
  - apply Qnot_le_lt. intro Hle. apply Qle_bool_iff in Hle. congruence.
  - destruct (Qle_bool y x) eqn:E; [|reflexivity].
    apply Qle_bool_iff in E. exfalso. apply (Qlt_not_le _ _ H E).
Qed.

Lemma Qeqb_false (x y : Q) : Qeqb x y = false <-> ~ x == y.
Proof.
  rewrite <- Qeqb_true. destruct (Qeqb x y); split; intro; congruence.
Qed.

Lemma Qltb_false (x y : Q) : Qltb x y = false <-> y <= x.
Proof.
  split; intro H.
  - apply Qnot_lt_le. intro Hlt. apply Qltb_true in Hlt. congruence.
  - destruct (Qltb x y) eqn:E; [|reflexivity].
    apply Qltb_true in E. exfalso. apply (Qlt_not_le _ _ E H).
Qed.

Lemma Qleb_false (x y : Q) : Qleb x y = false <-> y < x.
Proof.
  split; intro H.
  - apply Qnot_le_lt. intro Hle. apply Qleb_true in Hle. congruence.
  - destruct (Qleb x y) eqn:E; [|reflexivity].
    apply Qleb_true in E. exfalso. apply (Qlt_not_le _ _ H E).
Qed.

Lemma num_eq_refl (a : number) : num_eq a a.
Proof. destruct a; simpl; auto. reflexivity. Qed.

Lemma num_eq_sym (a b : number) : num_eq a b -> num_eq b a.
Proof. destruct a, b; simpl; auto. intro H; symmetry; exact H. Qed.

Lemma num_eq_trans (a b c : number) : num_eq a b -> num_eq b c -> num_eq a c.
Proof.
  destruct a, b, c; simpl; auto; try contradiction.
  intros H1 H2. rewrite H1. exact H2.
Qed.


Lemma gt_zero_Fin (x : Q) : gt (Fin x) (Fin 0) = true <-> 0 < x.
Proof. unfold gt; simpl. apply Qltb_true. Qed.

Lemma lt_zero_Fin (x : Q) : lt (Fin x) (Fin 0) = true <-> x < 0.
Proof. simpl. apply Qltb_true. Qed.

End NumberFacts.

#[export] Instance num_eq_Equivalence : Equivalence num_eq.
Proof.
  split.
  - exact num_eq_refl.
  - exact num_eq_sym.
  - exact num_eq_trans.
Qed.

(** * Facts about arrays *)

Section ArrayFacts.
Variable A : Type.
Implicit Types (l : list A) (f : A -> A).

Lemma modify_nth_length i f l : length (modify_nth i f l) = length l.
Proof.
  revert i; induction l as [|x t IH]; intros [|i]; simpl; auto.
Qed.

Lemma nth_error_modify_nth_eq i f l :
  nth_error (modify_nth i f l) i = option_map f (nth_error l i).
Proof.
  revert i; induction l as [|x t IH]; intros [|i]; simpl; auto.
Qed.

Lemma nth_error_modify_nth_neq i j f l :
  i <> j -> nth_error (modify_nth i f l) j = nth_error l j.
Proof.
  revert i j; induction l as [|x t IH]; intros [|i] [|j] H; simpl; auto.
  - congruence.
Qed.

Lemma modify_nth_out_of_range i f l :
  (length l <= i)%nat -> modify_nth i f l = l.
Proof.
  revert i; induction l as [|x t IH]; intros [|i] H; simpl in *; auto.
  - lia.
  - f_equal. apply IH. lia.
Qed.

Lemma map_modify_nth (B : Type) (g : A -> B) i f l :
  (forall x, g (f x) = g x) -> map g (modify_nth i f l) = map g l.
Proof.
  intro H. revert i; induction l as [|x t IH]; intros [|i]; simpl; auto.
  - now rewrite H.
  - now rewrite IH.
Qed.

Lemma map_modify_nth_commute (B : Type) (g : A -> B) (h : B -> B) i f l :
  (forall x, g (f x) = h (g x)) ->
  map g (modify_nth i f l) = modify_nth i h (map g l).
Proof.
  intro H. revert i; induction l as [|x t IH]; intros [|i]; simpl; auto.
  - now rewrite H.
  - now rewrite IH.
Qed.

Lemma skipn_nth_error i l x :
  nth_error l i = Some x -> skipn i l = x :: skipn (S i) l.
Proof.
  revert i; induction l as [|y t IH]; intros [|i] H; simpl in *; try discriminate.
  - now inversion H.
  - now apply IH.
Qed.

Lemma skipn_modify_nth_here i f l x :
  nth_error l i = Some x -> skipn i (modify_nth i f l) = f x :: skipn (S i) l.
Proof.
  revert i; induction l as [|y t IH]; intros [|i] H; simpl in *; try discriminate.
  - now inversion H.
  - now apply IH.
Qed.

Lemma skipn_modify_nth_after i j f l :
  (i < j)%nat -> skipn j (modify_nth i f l) = skipn j l.
Proof.
  revert i j; induction l as [|y t IH]; intros [|i] [|j] H; simpl in *; auto; try lia.
  apply IH. lia.
Qed.

End ArrayFacts.

(** * Sums of numbers *)

Section SumFacts.





Lemma fold_left_add_NaN (l : list number) : fold_left add l NaN = NaN.
Proof. induction l as [|x t IH]; simpl; auto. Qed.

Lemma add_NaN_r (a : number) : add a NaN = NaN.
Proof. now destruct a. Qed.

Lemma fold_left_add_In_NaN (l : list number) (a : number) :
  In NaN l -> fold_left add l a = NaN.
Proof.
  revert a; induction l as [|x t IH]; intros a H; simpl in *.
  - contradiction.
  - destruct H as [H|H].
    + subst x. rewrite add_NaN_r. apply fold_left_add_NaN.
    + now apply IH.
Qed.



End SumFacts.

(** * Facts about [reduce] without an initial value *)

Section ReduceFacts.
Variable A : Type.
Variable key : A -> Q.
Variable good : A -> Prop.
Variable prefer : A -> A -> bool.
Hypothesis prefer_spec :
  forall x y, good x -> good y -> (prefer x y = true <-> key y < key x).



End ReduceFacts.


(** * Properties of [roundBalancesToUnit] *)

Section RoundingFacts.

Lemma roundToUnit_not_finite (value unit : number) :
  Number_isFinite value = false -> roundToUnit value unit = Fin 0.
Proof. unfold roundToUnit. now intros ->. Qed.

Lemma roundToUnit_Fin (d u : Q) :
  ~ u == 0 -> roundToUnit (Fin d) (Fin u) = Fin (rounded_value d u).
Proof.
  intro Hu. unfold roundToUnit, rounded_value. simpl.
  apply Qeqb_false in Hu. now rewrite Hu.
Qed.


Lemma total_rounded_sum (rounded : list RoundedBalance) :
  total_rounded rounded = sum_numbers (map roundedDiff rounded).
Proof.
  unfold total_rounded, sum_numbers. generalize (Fin 0).
  induction rounded as [|b t IH]; intro a; simpl; auto.
Qed.

Lemma round_each_balance balances unit :
  map balance (round_each balances unit) = balances.
Proof.
  unfold round_each. rewrite map_map. simpl. apply map_id.
Qed.

Lemma round_each_roundedDiff balances unit :
  map roundedDiff (round_each balances unit)
  = map (fun b => roundToUnit (diff b) unit) balances.
Proof. unfold round_each. now rewrite map_map. Qed.

Lemma round_each_length balances unit :
  length (round_each balances unit) = length balances.
Proof. unfold round_each. apply length_map. Qed.

Lemma adjust_target_shape prefer total rounded :
  exists k, adjust_target prefer total rounded
            = modify_nth k (subtract_drift total) rounded.
Proof.
  unfold adjust_target. destruct (reduce_index prefer rounded) as [k|].
  - now exists k.
  - exists (length rounded). now rewrite modify_nth_out_of_range.
Qed.

(** The result is the naively rounded list with at most one element
    changed, by [subtract_drift]. *)
Lemma roundBalancesToUnit_shape balances unit :
  exists k, roundBalancesToUnit balances unit
            = modify_nth k (subtract_drift (total_rounded (round_each balances unit)))
                         (round_each balances unit).
Proof.
  unfold roundBalancesToUnit.
  destruct (strict_neq _ _ && _).
  - destruct (gt _ _); apply adjust_target_shape.
  - exists (length (round_each balances unit)).
    now rewrite modify_nth_out_of_range.
Qed.

End RoundingFacts.

Section DriftFacts.












End DriftFacts.

Section ClosureFacts.





End ClosureFacts.

(** * The ledger, entry by entry *)

Section LedgerFacts.

Lemma ledger_map_keys g m : ledger_keys (ledger_map g m) = ledger_keys m.
Proof.
  unfold ledger_keys, ledger_map. rewrite map_map. reflexivity.
Qed.

Lemma ledger_map_id m : ledger_map (fun _ v => v) m = m.
Proof.
  unfold ledger_map. induction m as [|[k v] t IH]; simpl; auto. now rewrite IH.
Qed.

Lemma ledger_map_compose g h m :
  ledger_map h (ledger_map g m) = ledger_map (fun k v => h k (g k v)) m.
Proof.
  unfold ledger_map. rewrite map_map. reflexivity.
Qed.

Lemma ledger_get_None key m :
  ledger_get key m = None <-> ~ In key (ledger_keys m).
Proof.
  induction m as [|[k v] t IH]; simpl.
  - tauto.
  - destruct (String.eqb_spec k key) as [->|Hne].
    + split; [discriminate|]. intro H. exfalso. apply H. now left.
    + rewrite IH. tauto.
Qed.

Lemma ledger_modify_absent key f m :
  ~ In key (ledger_keys m) -> ledger_modify key f m = m.
Proof.
  induction m as [|[k v] t IH]; simpl; intro H; auto.
  destruct (String.eqb_spec k key) as [->|Hne].
  - exfalso. apply H. now left.
  - rewrite IH; auto.
Qed.

(** The guard on the result of [ledger.get] only skips a change that
    would find nothing to change. *)
Lemma guarded_modify key f m :
  match ledger_get key m with
  | Some _ => ledger_modify key f m
  | None => m
  end = ledger_modify key f m.
Proof.
  destruct (ledger_get key m) eqn:E; auto.
  symmetry. apply ledger_modify_absent. now apply ledger_get_None.
Qed.

Lemma ledger_modify_map key f m :
  NoDup (ledger_keys m) ->
  ledger_modify key f m
  = ledger_map (fun k v => if String.eqb k key then f v else v) m.
Proof.
  induction m as [|[k v] t IH]; simpl; intro Hnd; auto.
  inversion Hnd as [|? ? Hk Ht]; subst.
  destruct (String.eqb_spec k key) as [->|Hne].
  - f_equal. unfold ledger_map.
    rewrite <- (map_id t) at 1. apply map_ext_in. intros [k' v'] Hin. simpl.
    destruct (String.eqb_spec k' key) as [->|]; auto.
    exfalso. apply Hk. unfold ledger_keys.
    change key with (fst (key, v')). now apply in_map.
  - f_equal. now apply IH.
Qed.

Lemma ledger_set_fresh key value m :
  ~ In key (ledger_keys m) -> ledger_set key value m = m ++ [(key, value)].
Proof.
  induction m as [|[k v] t IH]; simpl; intro H; auto.
  destruct (String.eqb_spec k key) as [->|Hne].
  - exfalso. apply H. now left.
  - rewrite IH; auto.
Qed.

Lemma ledger_set_keys_NoDup key value m :
  NoDup (ledger_keys m) -> NoDup (ledger_keys (ledger_set key value m)).
Proof.
  induction m as [|[k v] t IH]; simpl; intro Hnd.
  - constructor; [intros []|constructor].
  - inversion Hnd as [|? ? Hk Ht]; subst.
    destruct (String.eqb_spec k key) as [->|Hne]; simpl.
    + constructor; auto.
    + constructor; auto.
      intro Hin. apply Hk. clear -Hin Hne.
      induction t as [|[k' v'] t IH]; simpl in *.
      * destruct Hin as [Hin|[]]. congruence.
      * destruct (String.eqb_spec k' key) as [->|Hne']; simpl in *.
        -- exact Hin.
        -- destruct Hin as [Hin|Hin]; auto.
Qed.

Lemma registered_keys_NoDup participants m :
  NoDup (ledger_keys m) ->
  NoDup (ledger_keys (fold_left register_participant participants m)).
Proof.
  revert m; induction participants as [|p t IH]; intros m H; simpl; auto.
  apply IH. now apply ledger_set_keys_NoDup.
Qed.


End LedgerFacts.

Section AccumulateFacts.

(** A loop whose body changes every entry on its own changes every entry
    by the loop of these changes. *)
Lemma fold_left_ledger_map (X : Type) (step : Ledger -> X -> Ledger)
      (effect : string -> LedgerEntry -> X -> LedgerEntry) :
  (forall m x, NoDup (ledger_keys m) ->
               step m x = ledger_map (fun k v => effect k v x) m) ->
  forall xs m, NoDup (ledger_keys m) ->
               fold_left step xs m = ledger_map (fun k v => fold_left (effect k) xs v) m.
Proof.
  intros Hstep xs. induction xs as [|x t IH]; intros m Hnd; simpl.
  - now rewrite ledger_map_id.
  - rewrite Hstep by exact Hnd.
    rewrite IH by (now rewrite ledger_map_keys).
    apply ledger_map_compose.
Qed.

Lemma process_share_map m share :
  NoDup (ledger_keys m) ->
  process_share m share = ledger_map (fun k v => share_effect k v share) m.
Proof.
  intro Hnd. unfold process_share. rewrite guarded_modify.
  now rewrite ledger_modify_map.
Qed.

Lemma process_expense_map m expense :
  NoDup (ledger_keys m) ->
  process_expense m expense = ledger_map (fun k v => expense_effect k v expense) m.
Proof.
  intro Hnd. unfold process_expense, expense_effect.
  destruct (le (expense_amount expense) (Fin 0)).
  - now rewrite ledger_map_id.
  - rewrite guarded_modify, ledger_modify_map by exact Hnd.
    rewrite (fold_left_ledger_map process_share share_effect process_share_map)
      by (now rewrite ledger_map_keys).
    apply ledger_map_compose.
Qed.

Lemma accumulate_map participants expenses :
  accumulate participants expenses
  = ledger_map (expenses_effect expenses)
               (fold_left register_participant participants []).
Proof.
  unfold accumulate, expenses_effect.
  apply (fold_left_ledger_map process_expense expense_effect process_expense_map).
  apply registered_keys_NoDup. constructor.
Qed.

Lemma calculateBalances_entries participants expenses :
  calculateBalances participants expenses
  = map (fun kv => finalize (expenses_effect expenses (fst kv) (snd kv)))
        (fold_left register_participant participants []).
Proof.
  unfold calculateBalances, ledger_values. rewrite accumulate_map.
  unfold ledger_map. now rewrite !map_map.
Qed.


(** The three fields of an entry after the shares of an expense. *)
Lemma shares_effect_fields key ss entry :
  entry_participant (fold_left (share_effect key) ss entry) = entry_participant entry
  /\ entry_paid (fold_left (share_effect key) ss entry) = entry_paid entry
  /\ entry_shouldPay (fold_left (share_effect key) ss entry)
     = fold_left add
         (map share_amount (filter (fun s => String.eqb key (participantId s)) ss))
         (entry_shouldPay entry).
Proof.
  revert entry; induction ss as [|s t IH]; intro entry; simpl; auto.
  destruct (IH (share_effect key entry s)) as (H1 & H2 & H3).
  rewrite H1, H2, H3. unfold share_effect.
  destruct (String.eqb key (participantId s)); simpl; auto.
Qed.

End AccumulateFacts.

(** * Balances in closed form *)

Section BalanceFacts.

Lemma expenses_effect_fields key expenses entry :
  entry_participant (expenses_effect expenses key entry) = entry_participant entry
  /\ entry_paid (expenses_effect expenses key entry)
     = fold_left add (paid_amounts counted expenses key) (entry_paid entry)
  /\ entry_shouldPay (expenses_effect expenses key entry)
     = fold_left add (owed_amounts counted expenses key) (entry_shouldPay entry).
Proof.
  unfold expenses_effect, paid_amounts, owed_amounts.
  revert entry; induction expenses as [|e t IH]; intro entry; simpl; auto.
  destruct (IH (expense_effect key entry e)) as (H1 & H2 & H3).
  rewrite H1, H2, H3. clear H1 H2 H3 IH.
  unfold expense_effect, counted.
  destruct (le (expense_amount e) (Fin 0)); simpl; auto.
  destruct (shares_effect_fields key (shares e)
              (if String.eqb key (payerId e)
               then add_paid (expense_amount e) entry else entry)) as (H1 & H2 & H3).
  rewrite H1, H2, H3. clear H1 H2 H3.
  rewrite filter_app, map_app, fold_left_app.
  destruct (String.eqb key (payerId e)); simpl; auto.
Qed.

Lemma finalize_effect select expenses p :
  (forall key entry,
      entry_paid (expenses_effect expenses key entry)
      = fold_left add (paid_amounts select expenses key) (entry_paid entry)
      /\ entry_shouldPay (expenses_effect expenses key entry)
         = fold_left add (owed_amounts select expenses key) (entry_shouldPay entry)) ->
  finalize (expenses_effect expenses (id p) (mkLedgerEntry p (Fin 0) (Fin 0)))
  = balance_of select expenses p.
Proof.
  intro H. unfold finalize, balance_of, sum_numbers.
  destruct (H (id p) (mkLedgerEntry p (Fin 0) (Fin 0))) as (H2 & H3).
  destruct (expenses_effect_fields (id p) expenses (mkLedgerEntry p (Fin 0) (Fin 0)))
    as (H1 & _ & _).
  rewrite H1, H2, H3. reflexivity.
Qed.





(** Nothing paid and nothing owed: the balance is zero. *)
Lemma balance_of_nothing select expenses p :
  paid_amounts select expenses (id p) = [] ->
  owed_amounts select expenses (id p) = [] ->
  balance_of select expenses p = mkCalculatedBalance p (Fin 0) (Fin 0) (Fin 0).
Proof.
  intros H1 H2. unfold balance_of. rewrite H1, H2. reflexivity.
Qed.

End BalanceFacts.

Lemma filter_none (A : Type) (f : A -> bool) (l : list A) :
  (forall a, In a l -> f a = false) -> filter f l = [].
Proof.
  induction l as [|x t IH]; simpl; intro H; auto.
  rewrite (H x) by now left.
  apply IH. auto.
Qed.

Lemma not_involved_nothing select expenses p :
  (forall e, In e expenses ->
             payerId e <> id p
             /\ forall s, In s (shares e) -> participantId s <> id p) ->
  paid_amounts select expenses (id p) = []
  /\ owed_amounts select expenses (id p) = [].
Proof.
  intro H. unfold paid_amounts, owed_amounts. split.
  - rewrite filter_none; auto. intros e He.
    destruct (H e He) as [Hp _].
    destruct (String.eqb_spec (id p) (payerId e)); [congruence|].
    apply andb_false_r.
  - rewrite filter_none; auto. intros s Hs.
    apply in_flat_map in Hs. destruct Hs as (e & He & Hs).
    apply filter_In in He. destruct He as [He _].
    destruct (H e He) as [_ Hsh]. specialize (Hsh s Hs).
    destruct (String.eqb_spec (id p) (participantId s)); congruence.
Qed.

(** * Rounding at the end of [calculateBalances] *)

Lemma Math_round_nearest (q : Q) :
  exists z : Z,
    Math_round (Fin q) = Fin (inject_Z z)
    /\ q - (1 # 2) < inject_Z z /\ inject_Z z <= q + (1 # 2).
Proof.
  exists (Qfloor (q + (1 # 2))). split; [reflexivity|]. split.
  - pose proof (Qlt_floor (q + (1 # 2))) as H.
    rewrite inject_Z_plus in H. change (inject_Z 1) with 1 in H.
    set (r := inject_Z (Qfloor (q + (1 # 2)))) in *. lra.
  - apply Qfloor_le.
Qed.

Lemma Math_round_half_goes_up (z : Z) :
  Math_round (Fin (inject_Z z + (1 # 2))) = Fin (inject_Z (z + 1)).
Proof.
  unfold Math_round. do 2 f_equal.
  assert (H : inject_Z z + (1 # 2) + (1 # 2) == inject_Z (z + 1)).
  { rewrite inject_Z_plus. change (inject_Z 1) with 1. ring. }
  rewrite (Qfloor_comp _ _ H). apply Qfloor_Z.
Qed.

(** * Input that [calculateBalances] and [roundToUnit] pass over *)

Section ToleranceFacts.

Lemma reduce_from_map (A B : Type) (f : A -> B) (p : B -> B -> bool)
      (rest : list A) (i best_i : nat) (best : A) :
  reduce_from (fun x y => p (f x) (f y)) rest i best_i best
  = reduce_from p (map f rest) i best_i (f best).
Proof.
  revert i best_i best; induction rest as [|x t IH]; intros i best_i best; simpl; auto.
  destruct (p (f x) (f best)); apply IH.
Qed.

Lemma reduce_index_map (A B : Type) (f : A -> B) (p : B -> B -> bool) (l : list A) :
  reduce_index (fun x y => p (f x) (f y)) l = reduce_index p (map f l).
Proof.
  destruct l as [|first rest]; simpl; auto. now rewrite reduce_from_map.
Qed.

Lemma adjust_target_roundedDiff (p : number -> number -> bool) total rounded :
  map roundedDiff
      (adjust_target (fun x y => p (roundedDiff x) (roundedDiff y)) total rounded)
  = match reduce_index p (map roundedDiff rounded) with
    | Some target => modify_nth target (fun x => sub x total) (map roundedDiff rounded)
    | None => map roundedDiff rounded
    end.
Proof.
  unfold adjust_target. rewrite reduce_index_map.
  destruct (reduce_index p (map roundedDiff rounded)); auto.
  now apply map_modify_nth_commute.
Qed.

(** The rounded differences of the result depend on the naively rounded
    differences only. *)
Lemma roundBalancesToUnit_roundedDiff balances unit :
  map roundedDiff (roundBalancesToUnit balances unit)
  = close_drift (map (fun b => roundToUnit (diff b) unit) balances).
Proof.
  rewrite <- round_each_roundedDiff.
  unfold roundBalancesToUnit, close_drift.
  rewrite total_rounded_sum, length_map.
  destruct (strict_neq _ _ && _); [|reflexivity].
  destruct (gt _ _).
  - unfold larger. now rewrite (adjust_target_roundedDiff (fun x max => gt x max)).
  - unfold smaller. now rewrite (adjust_target_roundedDiff (fun x min => lt x min)).
Qed.

Lemma roundToUnit_zero_integer_unit (z : Z) :
  z <> 0%Z -> roundToUnit (Fin 0) (Fin (inject_Z z)) = Fin 0.
Proof.
  intro Hz. rewrite roundToUnit_Fin.
  - unfold rounded_value.
    assert (H : 0 / inject_Z z + (1 # 2) == 1 # 2).
    { unfold Qdiv. ring. }
    rewrite (Qfloor_comp _ _ H). reflexivity.
  - unfold Qeq. simpl. lia.
Qed.

Lemma registered_keys_subset participants m key :
  In key (ledger_keys (fold_left register_participant participants m)) ->
  In key (ledger_keys m) \/ In key (map id participants).
Proof.
  revert m; induction participants as [|p t IH]; intros m H; simpl in *; auto.
  destruct (IH _ H) as [Hin|Hin]; auto.
  assert (G : forall k v (m : Ledger),
             In key (ledger_keys (ledger_set k v m)) -> In key (ledger_keys m) \/ k = key).
  { clear. intros k v m. induction m as [|[k' v'] r IHm]; simpl.
    - intros [H|[]]; auto.
    - destruct (String.eqb_spec k' k) as [->|Hne]; simpl.
      + intros [H|H]; auto.
      + intros [H|H]; auto. destruct (IHm H); auto. }
  destruct (G _ _ _ Hin) as [Hm|Hk]; auto.
Qed.

Lemma registered_key_is_participant participants key :
  In key (ledger_keys (fold_left register_participant participants [])) ->
  exists p, In p participants /\ id p = key.
Proof.
  intro H. apply registered_keys_subset in H. destruct H as [[]|H].
  apply in_map_iff in H. destruct H as (p & Hp & Hin). eauto.
Qed.

(** Two lists of expenses that do the same to the entry of every
    participant give the same balances. *)
Lemma calculateBalances_ext participants expenses1 expenses2 :
  (forall p entry, In p participants ->
                   expenses_effect expenses1 (id p) entry
                   = expenses_effect expenses2 (id p) entry) ->
  calculateBalances participants expenses1 = calculateBalances participants expenses2.
Proof.
  intro H. rewrite !calculateBalances_entries. apply map_ext_in.
  intros [k v] Hin. simpl.
  destruct (@registered_key_is_participant participants k) as (p & Hp & <-).
  - unfold ledger_keys. change k with (fst (k, v)). now apply in_map.
  - now rewrite H.
Qed.

Lemma calculateBalances_paid_ext participants expenses1 expenses2 :
  (forall p, In p participants ->
             paid_amounts counted expenses1 (id p) = paid_amounts counted expenses2 (id p)) ->
  map paid (calculateBalances participants expenses1)
  = map paid (calculateBalances participants expenses2).
Proof.
  intro H. rewrite !calculateBalances_entries, !map_map. apply map_ext_in.
  intros [k v] Hin. simpl.
  destruct (@registered_key_is_participant participants k) as (p & Hp & <-).
  - unfold ledger_keys. change k with (fst (k, v)). now apply in_map.
  - destruct (expenses_effect_fields (id p) expenses1 v) as (_ & -> & _).
    destruct (expenses_effect_fields (id p) expenses2 v) as (_ & -> & _).
    now rewrite H.
Qed.

End ToleranceFacts.

Lemma shares_effect_unknown key shares1 share shares2 entry :
  String.eqb key (participantId share) = false ->
  fold_left (share_effect key) (shares1 ++ share :: shares2) entry
  = fold_left (share_effect key) (shares1 ++ shares2) entry.
Proof.
  intro H. rewrite !fold_left_app. simpl. f_equal.
  unfold share_effect. now rewrite H.
Qed.

Lemma expense_effect_unknown_share key entry expense shares1 share shares2 :
  shares expense = shares1 ++ share :: shares2 ->
  String.eqb key (participantId share) = false ->
  expense_effect key entry expense
  = expense_effect key entry (with_shares expense (shares1 ++ shares2)).
Proof.
  intros Hsh H. unfold expense_effect. simpl. rewrite Hsh.
  destruct (le (expense_amount expense) (Fin 0)); auto.
  now apply shares_effect_unknown.
Qed.

(** * The loop and its view *)

Section ViewFacts.

Lemma skipn_nonempty (A : Type) (i : nat) (l : list A) :
  (i <? length l)%nat = true -> exists x, nth_error l i = Some x.
Proof.
  intro H. apply Nat.ltb_lt in H.
  destruct (nth_error l i) eqn:E; eauto.
  apply nth_error_None in E. lia.
Qed.

Lemma skipn_empty (A : Type) (i : nat) (l : list A) :
  (i <? length l)%nat = false -> skipn i l = [].
Proof.
  intro H. apply Nat.ltb_ge in H. now apply skipn_all2.
Qed.

Lemma loop_cond_view (st : PlanState) : loop_cond st = view_cond (view st).
Proof.
  unfold loop_cond, view_cond, view. simpl.
  destruct (debtorIndex st <? length (debtors st))%nat eqn:Ed.
  - destruct (skipn_nonempty _ _ Ed) as [d Hd].
    rewrite (skipn_nth_error _ _ Hd).
    destruct (creditorIndex st <? length (creditors st))%nat eqn:Ec.
    + destruct (skipn_nonempty _ _ Ec) as [c Hc].
      now rewrite (skipn_nth_error _ _ Hc).
    + now rewrite (skipn_empty _ _ Ec).
  - now rewrite (skipn_empty _ _ Ed).
Qed.

Lemma skipn_after_withdrawal (i : nat) (l : list Account) (account : Account)
      (amount : number) :
  nth_error l i = Some account ->
  skipn (if strict_eq (sub (account_amount account) amount) (Fin 0) then S i else i)
        (modify_nth i (withdraw amount) l)
  = after_withdrawal amount account (skipn (S i) l).
Proof.
  intro H. unfold after_withdrawal.
  destruct (strict_eq (sub (account_amount account) amount) (Fin 0)).
  - apply skipn_modify_nth_after. lia.
  - now apply skipn_modify_nth_here.
Qed.

Lemma loop_body_view (st : PlanState) :
  loop_cond st = true -> view (loop_body st) = view_step (view st).
Proof.
  intro H. unfold loop_cond in H. apply andb_true_iff in H. destruct H as [Hd Hc].
  destruct (skipn_nonempty _ _ Hd) as [d Ed].
  destruct (skipn_nonempty _ _ Hc) as [c Ec].
  unfold loop_body, view_step, view. rewrite Ed, Ec. simpl.
  rewrite (skipn_nth_error _ _ Ed), (skipn_nth_error _ _ Ec).
  rewrite (skipn_after_withdrawal _ _ _ Ed), (skipn_after_withdrawal _ _ _ Ec).
  reflexivity.
Qed.

Lemma iterate_view (n : nat) (st : PlanState) :
  view (iterate n st) = view_iterate n (view st).
Proof.
  revert st; induction n as [|n IH]; intro st; simpl; auto.
  rewrite <- loop_cond_view.
  destruct (loop_cond st) eqn:E; auto.
  rewrite IH. now rewrite loop_body_view.
Qed.



End ViewFacts.

(** * One pass of the loop on positive amounts *)

Section PassFacts.

Lemma positive_cases (a : number) :
  positive a -> a = Infinity \/ exists x, a = Fin x /\ 0 < x.
Proof.
  unfold positive, gt. destruct a; simpl; try discriminate; auto.
  intro H. right. exists q. split; auto. now apply Qltb_true.
Qed.

Lemma positive_Fin (x : Q) : 0 < x -> positive (Fin x).
Proof. intro H. unfold positive. now apply gt_zero_Fin. Qed.

Lemma Math_min_cases (da ca : number) :
  positive da -> positive ca ->
  (da = Infinity /\ ca = Infinity)
  \/ exists m, Math_min da ca = Fin m /\ 0 < m
               /\ covers da m /\ covers ca m
               /\ (exactly da m \/ exactly ca m).
Proof.
  intros Hd Hc.
  destruct (positive_cases Hd) as [->|(x & -> & Hx)];
    destruct (positive_cases Hc) as [->|(y & -> & Hy)].
  - now left.
  - right. exists y. simpl. repeat split; auto.
    + now left.
    + right. exists y. split; auto. apply Qle_refl.
    + right. exists y. split; auto. reflexivity.
  - right. exists x. simpl. repeat split; auto.
    + right. exists x. split; auto. apply Qle_refl.
    + now left.
    + left. exists x. split; auto. reflexivity.
  - right. exists (Qmin x y). simpl. repeat split; auto.
    + destruct (Q.min_spec x y) as [[_ ->]|[_ ->]]; auto.
    + right. exists x. split; auto. apply Q.le_min_l.
    + right. exists y. split; auto. apply Q.le_min_r.
    + destruct (Q.min_spec x y) as [[_ H]|[_ H]].
      * left. exists x. split; auto. now symmetry.
      * right. exists y. split; auto. now symmetry.
Qed.

Lemma after_withdrawal_infinite (m : Q) (account : Account) (rest : list Account) :
  account_amount account = Infinity ->
  after_withdrawal (Fin m) account rest
  = mkAccount (account_id account) Infinity :: rest.
Proof.
  intro H. unfold after_withdrawal, withdraw. rewrite H. reflexivity.
Qed.

Lemma after_withdrawal_exact (m x : Q) (account : Account) (rest : list Account) :
  account_amount account = Fin x -> x == m ->
  after_withdrawal (Fin m) account rest = rest.
Proof.
  intros H Hx. unfold after_withdrawal. rewrite H. simpl.
  assert (E : Qeqb (x + - m) 0 = true) by (apply Qeqb_true; lra).
  now rewrite E.
Qed.

Lemma after_withdrawal_more (m x : Q) (account : Account) (rest : list Account) :
  account_amount account = Fin x -> m < x ->
  after_withdrawal (Fin m) account rest
  = mkAccount (account_id account) (Fin (x + - m)) :: rest.
Proof.
  intros H Hx. unfold after_withdrawal, withdraw. rewrite H. simpl.
  assert (E : Qeqb (x + - m) 0 = false) by (apply Qeqb_false; lra).
  now rewrite E.
Qed.

(** The three cases of a withdrawal that the account covers. *)
Lemma after_withdrawal_cases (m : Q) (account : Account) (rest : list Account) :
  covers (account_amount account) m ->
  (account_amount account = Infinity
   /\ after_withdrawal (Fin m) account rest
      = mkAccount (account_id account) Infinity :: rest)
  \/ (exists x, account_amount account = Fin x /\ x == m
                /\ after_withdrawal (Fin m) account rest = rest)
  \/ (exists x, account_amount account = Fin x /\ m < x
                /\ after_withdrawal (Fin m) account rest
                   = mkAccount (account_id account) (Fin (x + - m)) :: rest).
Proof.
  intros [H|(x & H & Hle)].
  - left. split; auto. now apply after_withdrawal_infinite.
  - right. destruct (Qlt_le_dec m x) as [Hlt|Hge].
    + right. exists x. repeat split; auto. now apply after_withdrawal_more.
    + left. exists x. assert (x == m) by lra. repeat split; auto.
      now apply after_withdrawal_exact with (x := x).
Qed.

End PassFacts.

Section GoodFacts.

Lemma after_withdrawal_positive (m : Q) (account : Account) (rest : list Account) :
  0 < m -> covers (account_amount account) m ->
  Forall positive_account rest ->
  Forall positive_account (after_withdrawal (Fin m) account rest)
  /\ (length (after_withdrawal (Fin m) account rest) <= S (length rest))%nat
  /\ (exactly (account_amount account) m ->
      after_withdrawal (Fin m) account rest = rest).
Proof.
  intros Hm Hcov Hrest.
  destruct (after_withdrawal_cases account rest Hcov)
    as [(Ha & ->)|[(x & Ha & Hx & ->)|(x & Ha & Hx & ->)]].
  - repeat split; simpl; auto.
    + constructor; auto. reflexivity.
    + intros (x & Hx & _). congruence.
  - repeat split; auto.
  - repeat split; simpl; auto.
    + constructor; auto. apply positive_Fin. lra.
    + intros (y & Hy & Hym). rewrite Ha in Hy. inversion Hy; subst. lra.
Qed.

Lemma view_cond_true (v : View) :
  view_cond v = true ->
  exists d ds c cs, pending_debtors v = d :: ds /\ pending_creditors v = c :: cs.
Proof.
  unfold view_cond.
  destruct (pending_debtors v) as [|d ds]; [discriminate|].
  destruct (pending_creditors v) as [|c cs]; [discriminate|].
  intros _. now exists d, ds, c, cs.
Qed.

(** A pass on positive amounts either moves a cursor or meets
    [Infinity] on both sides. *)
Lemma good_step (v : View) :
  good v -> view_cond v = true ->
  (good (view_step v)
   /\ (view_size (view_step v) < view_size v)%nat
   /\ length (emitted (view_step v)) = S (length (emitted v)))
  \/ (dead (view_step v)
      /\ length (emitted (view_step v)) = S (length (emitted v))).
Proof.
  intros [Gd Gc] Hc.
  destruct (view_cond_true v Hc) as (d & ds & c & cs & Ed & Ec).
  unfold view_step, view_size. rewrite Ed, Ec in *.
  inversion Gd as [|? ? Pd Gds]; subst. inversion Gc as [|? ? Pc Gcs]; subst.
  destruct (Math_min_cases Pd Pc) as [[Hd Hcc]|(m & Hmin & Hm & Cd & Cc & Hex)].
  - right. rewrite Hd, Hcc. simpl. split.
    + exists (withdraw Infinity d), ds, (withdraw Infinity c), cs.
      unfold after_withdrawal, withdraw. rewrite Hd, Hcc. simpl. auto.
    + rewrite length_app. simpl. lia.
  - left. rewrite Hmin.
    destruct (after_withdrawal_positive d Hm Cd Gds) as (G1 & L1 & X1).
    destruct (after_withdrawal_positive c Hm Cc Gcs) as (G2 & L2 & X2).
    assert (Hgt : gt (Fin m) (Fin 0) = true) by now apply gt_zero_Fin.
    rewrite Hgt. simpl. repeat split; auto.
    + destruct Hex as [Hex|Hex].
      * rewrite (X1 Hex). lia.
      * rewrite (X2 Hex). lia.
    + rewrite length_app. simpl. lia.
Qed.

Lemma dead_step (v : View) : dead v -> view_step v = v /\ view_cond v = true.
Proof.
  intros (d & ds & c & cs & Ed & Ec & Hd & Hc).
  unfold view_step, view_cond. rewrite Ed, Ec, Hd, Hc. simpl.
  split; auto.
  unfold after_withdrawal, withdraw. rewrite Hd, Hc. simpl.
  destruct v as [pd pc em]. simpl in *. subst pd pc.
  destruct d as [di da], c as [ci ca]. simpl in *. now subst.
Qed.

Lemma view_iterate_dead (n : nat) (v : View) : dead v -> view_iterate n v = v.
Proof.
  intro H. induction n as [|n IH]; simpl; auto.
  destruct (dead_step H) as [Hs ->]. now rewrite Hs.
Qed.

Lemma view_iterate_stopped (n : nat) (v : View) :
  view_cond v = false -> view_iterate n v = v.
Proof.
  intro H. destruct n; simpl; auto. now rewrite H.
Qed.

Lemma view_iterate_add (n k : nat) (v : View) :
  view_iterate (n + k) v = view_iterate k (view_iterate n v).
Proof.
  revert v; induction n as [|n IH]; intro v; simpl; auto.
  destruct (view_cond v) eqn:E; auto.
  now rewrite view_iterate_stopped.
Qed.

(** After as many passes as there are accounts the loop has ended or
    will never end. *)
Lemma view_iterate_outcome (n : nat) (v : View) :
  good v -> (view_size v <= n)%nat ->
  (good (view_iterate n v) /\ view_cond (view_iterate n v) = false)
  \/ dead (view_iterate n v).
Proof.
  revert v; induction n as [|n IH]; intros v G Hn; simpl.
  - left. split; auto. unfold view_size, view_cond in *.
    destruct (pending_debtors v); simpl in *; auto. lia.
  - destruct (view_cond v) eqn:E; auto.
    destruct (good_step G E) as [(G' & Hlt & _)|(D & _)].
    + apply IH; auto. lia.
    + right. now rewrite view_iterate_dead.
Qed.

End GoodFacts.

(** * The two arrays at the start of the loop *)

Section InitialFacts.

Lemma gt_zero_not_lt_zero (a : number) :
  gt a (Fin 0) = true -> lt a (Fin 0) = false.
Proof.
  unfold gt. destruct a; simpl; try discriminate; auto.
  intro H. apply Qltb_true in H. apply Qltb_false. lra.
Qed.

Lemma classify_fold (balances : list RoundedBalance) (ds cs : list Account) :
  fold_left classify balances (ds, cs)
  = (ds ++ initial_debtors balances, cs ++ initial_creditors balances).
Proof.
  unfold initial_debtors, initial_creditors.
  revert ds cs; induction balances as [|b t IH]; intros ds cs.
  - simpl. now rewrite !app_nil_r.
  - cbn [fold_left filter]. unfold classify at 2, is_creditor, is_debtor.
    destruct (gt (roundedDiff b) (Fin 0)) eqn:Eg.
    + rewrite (gt_zero_not_lt_zero _ Eg). rewrite IH. simpl.
      now rewrite <- app_assoc.
    + destruct (lt (roundedDiff b) (Fin 0)) eqn:El.
      * rewrite IH. simpl. now rewrite <- app_assoc.
      * apply IH.
Qed.

Lemma initial_state_eq (balances : list RoundedBalance) :
  initial_state balances
  = mkPlanState (initial_debtors balances) (initial_creditors balances) [] 0 0.
Proof.
  unfold initial_state. now rewrite classify_fold.
Qed.

Lemma view_initial_state (balances : list RoundedBalance) :
  view (initial_state balances) = initial_view balances.
Proof. now rewrite initial_state_eq. Qed.

Lemma passes_initial_state (balances : list RoundedBalance) :
  passes (initial_state balances) = view_size (initial_view balances).
Proof. now rewrite initial_state_eq. Qed.

Lemma initial_view_good (balances : list RoundedBalance) : good (initial_view balances).
Proof.
  split; simpl; unfold initial_debtors, initial_creditors;
    apply Forall_map, Forall_forall; intros b Hb; apply filter_In in Hb;
    destruct Hb as [_ Hb]; unfold positive_account, positive; simpl.
  - unfold is_debtor in Hb. destruct (roundedDiff b) as [q| | |]; simpl in *;
      try discriminate; auto.
    apply Qltb_true in Hb. apply gt_zero_Fin.
    rewrite Qabs_neg by lra. lra.
  - exact Hb.
Qed.

(** The result of [buildSettlementPlan], read off the view. *)
Lemma buildSettlementPlan_view (balances : list RoundedBalance) :
  buildSettlementPlan balances
  = let v := view_iterate (view_size (initial_view balances)) (initial_view balances) in
    if view_cond v then None else Some (emitted v).
Proof.
  unfold buildSettlementPlan.
  rewrite loop_cond_view, iterate_view, passes_initial_state, view_initial_state.
  simpl. destruct (view_cond _); auto.
  f_equal.
  change (settlements
            (iterate (view_size (initial_view balances)) (initial_state balances)))
    with (emitted
            (view (iterate (view_size (initial_view balances)) (initial_state balances)))).
  now rewrite iterate_view, view_initial_state.
Qed.

Lemma settlements_iterate (n : nat) (balances : list RoundedBalance) :
  settlements (iterate n (initial_state balances))
  = emitted (view_iterate n (initial_view balances)).
Proof.
  change (settlements (iterate n (initial_state balances)))
    with (emitted (view (iterate n (initial_state balances)))).
  now rewrite iterate_view, view_initial_state.
Qed.

(** [None] is the call that does not return: the condition of the loop
    holds after any number of passes. *)
Lemma loop_never_ends (balances : list RoundedBalance) :
  buildSettlementPlan balances = None ->
  forall n, loop_cond (iterate n (initial_state balances)) = true.
Proof.
  rewrite buildSettlementPlan_view. simpl. intros H n.
  rewrite loop_cond_view, iterate_view, view_initial_state.
  set (v0 := initial_view balances) in *.
  set (N := view_size v0) in *.
  destruct (view_cond (view_iterate N v0)) eqn:E; [|discriminate].
  destruct (@view_iterate_outcome N v0) as [[_ Hc]|Hd].
  - apply initial_view_good.
  - unfold N. lia.
  - congruence.
  - destruct (Nat.le_ge_cases N n) as [Hle|Hge].
    + replace n with (N + (n - N))%nat by lia.
      rewrite view_iterate_add, view_iterate_dead by exact Hd. exact E.
    + destruct (view_cond (view_iterate n v0)) eqn:En; auto.
      replace N with (n + (N - n))%nat in E by lia.
      rewrite view_iterate_add, view_iterate_stopped in E by exact En.
      congruence.
Qed.

(** [Infinity] owed to A and [Infinity] owed by B: the first pass leaves
    [NaN] in both accounts, and no later pass moves a cursor. *)
Lemma infinite_on_both_sides_never_returns :
  buildSettlementPlan
    [mkRoundedBalance (Samples.bal Samples.A 0) Infinity;
     mkRoundedBalance (Samples.bal Samples.B 0) NegInfinity] = None.
Proof. reflexivity. Qed.

End InitialFacts.

(** * How many entries, and between whom *)

Section CountFacts.

Lemma view_cond_size (v : View) : view_cond v = true -> (2 <= view_size v)%nat.
Proof.
  intro H. destruct (view_cond_true v H) as (d & ds & c & cs & Ed & Ec).
  unfold view_size. rewrite Ed, Ec. simpl. lia.
Qed.

Lemma count_inv_iterate (N n : nat) (v : View) :
  count_inv N v -> count_inv N (view_iterate n v).
Proof.
  revert v; induction n as [|n IH]; intros v H; simpl; auto.
  destruct (view_cond v) eqn:E; auto.
  apply IH. destruct H as [(G & H1 & H2)|(D & H2)].
  - pose proof (view_cond_size v E) as Hs.
    destruct (good_step G E) as [(G' & Hlt & He)|(D & He)].
    + left. split; [exact G'|split; lia].
    + right. split; [exact D|lia].
  - destruct (dead_step D) as [-> _]. right. auto.
Qed.

Lemma after_withdrawal_ids (amount : number) (account : Account) (rest : list Account)
      (a : Account) :
  In a (after_withdrawal amount account rest) ->
  account_id a = account_id account \/ In a rest.
Proof.
  unfold after_withdrawal. destruct (strict_eq _ _); simpl; auto.
  intros [<-|H]; auto.
Qed.

Lemma ids_inv_iterate (debtor_ids creditor_ids : list string) (n : nat) (v : View) :
  ids_inv debtor_ids creditor_ids v ->
  ids_inv debtor_ids creditor_ids (view_iterate n v).
Proof.
  revert v; induction n as [|n IH]; intros v H; simpl; auto.
  destruct (view_cond v) eqn:E; auto.
  apply IH. destruct H as (Hd & Hc & He).
  destruct (view_cond_true v E) as (d & ds & c & cs & Ed & Ec).
  unfold view_step. rewrite Ed, Ec in *.
  split; [|split]; cbn [pending_debtors pending_creditors emitted].
  - intros a Ha. apply after_withdrawal_ids in Ha. destruct Ha as [->|Ha].
    + apply Hd. now left.
    + apply Hd. now right.
  - intros a Ha. apply after_withdrawal_ids in Ha. destruct Ha as [->|Ha].
    + apply Hc. now left.
    + apply Hc. now right.
  - destruct (gt (Math_min (account_amount d) (account_amount c)) (Fin 0)) eqn:Eg.
    + intros e Hin. apply in_app_or in Hin. destruct Hin as [Hin|[<-|[]]].
      * apply He; auto.
      * simpl. split; [|split]; auto.
        -- apply Hd. now left.
        -- apply Hc. now left.
    + intros e Hin. apply He; auto.
Qed.

Lemma ids_inv_initial (balances : list RoundedBalance) :
  ids_inv (map account_id (initial_debtors balances))
          (map account_id (initial_creditors balances))
          (initial_view balances).
Proof.
  split; [|split]; simpl; try (intros a Ha; now apply in_map); intros e [].
Qed.

Lemma initial_debtor_ids (balances : list RoundedBalance) (pid : string) :
  In pid (map account_id (initial_debtors balances)) ->
  exists b, In b balances /\ is_debtor b = true /\ id (participant (balance b)) = pid.
Proof.
  unfold initial_debtors. rewrite map_map. intro H.
  apply in_map_iff in H. destruct H as (b & Hb & Hin).
  apply filter_In in Hin. destruct Hin as [Hin Hd]. eauto.
Qed.

Lemma initial_creditor_ids (balances : list RoundedBalance) (pid : string) :
  In pid (map account_id (initial_creditors balances)) ->
  exists b, In b balances /\ is_creditor b = true /\ id (participant (balance b)) = pid.
Proof.
  unfold initial_creditors. rewrite map_map. intro H.
  apply in_map_iff in H. destruct H as (b & Hb & Hin).
  apply filter_In in Hin. destruct Hin as [Hin Hd]. eauto.
Qed.

Lemma returned_plan (balances : list RoundedBalance) (plan : list SettlementEntry) :
  buildSettlementPlan balances = Some plan ->
  plan = settlements (iterate (view_size (initial_view balances)) (initial_state balances)).
Proof.
  rewrite buildSettlementPlan_view, settlements_iterate. simpl.
  destruct (view_cond _); congruence.
Qed.

End CountFacts.

(** * What was taken from the accounts is what was emitted *)

Section AccountingFacts.


Lemma Qsum_app (l m : list Q) : Qsum (l ++ m) == Qsum l + Qsum m.
Proof.
  induction l as [|x t IH]; simpl.
  - ring.
  - rewrite IH. ring.
Qed.

Lemma selected_sum_cons sel (a : Account) (l : list Account) :
  selected_sum sel (a :: l)
  == (if sel (account_id a) then account_value a else 0) + selected_sum sel l.
Proof.
  unfold selected_sum. simpl. destruct (sel (account_id a)); simpl; ring.
Qed.

Lemma sent_sum_snoc sel (es : list SettlementEntry) (e : SettlementEntry) :
  sent_sum sel (es ++ [e])
  == sent_sum sel es + (if sel (from e) then entry_value e else 0).
Proof.
  unfold sent_sum. rewrite filter_app, map_app, Qsum_app. simpl.
  destruct (sel (from e)); simpl; ring.
Qed.

Lemma received_sum_snoc sel (es : list SettlementEntry) (e : SettlementEntry) :
  received_sum sel (es ++ [e])
  == received_sum sel es + (if sel (to e) then entry_value e else 0).
Proof.
  unfold received_sum. rewrite filter_app, map_app, Qsum_app. simpl.
  destruct (sel (to e)); simpl; ring.
Qed.

Lemma after_withdrawal_accounting sel (m : Q) (account : Account) (rest : list Account) :
  covers (account_amount account) m ->
  has_infinite (after_withdrawal (Fin m) account rest) = has_infinite (account :: rest)
  /\ (has_infinite (account :: rest) = false ->
      selected_sum sel (after_withdrawal (Fin m) account rest)
      + (if sel (account_id account) then m else 0)
      == selected_sum sel (account :: rest)).
Proof.
  intro Hcov.
  destruct (after_withdrawal_cases account rest Hcov)
    as [(Ha & ->)|[(x & Ha & Hx & ->)|(x & Ha & Hx & ->)]].
  - split.
    + simpl. unfold infinite_account. simpl. now rewrite Ha.
    + simpl. unfold infinite_account. rewrite Ha. discriminate.
  - split.
    + simpl. unfold infinite_account. now rewrite Ha.
    + intros _. rewrite selected_sum_cons. unfold account_value. rewrite Ha. simpl.
      destruct (sel (account_id account)); lra.
  - split.
    + simpl. unfold infinite_account. simpl. now rewrite Ha.
    + intros _. rewrite !selected_sum_cons. unfold account_value. rewrite Ha. simpl.
      destruct (sel (account_id account)); lra.
Qed.

Lemma accounted_step (ds0 cs0 : list Account) (v : View) :
  has_infinite ds0 && has_infinite cs0 = false ->
  accounted ds0 cs0 v -> view_cond v = true ->
  accounted ds0 cs0 (view_step v).
Proof.
  intros Hnot [[Gd Gc] He Hid Hic Hd Hc] Hcond.
  destruct (view_cond_true v Hcond) as (d & ds & c & cs & Ed & Ec).
  unfold view_step. rewrite Ed, Ec in *.
  inversion Gd as [|? ? Pd Gds]; subst. inversion Gc as [|? ? Pc Gcs]; subst.
  destruct (Math_min_cases Pd Pc) as [[Hdi Hci]|(m & Hmin & Hm & Cd & Cc & Hex)].
  - exfalso. rewrite <- Hid, <- Hic in Hnot. simpl in Hnot.
    unfold infinite_account in Hnot. rewrite Hdi, Hci in Hnot. discriminate.
  - rewrite Hmin.
    assert (Hgt : gt (Fin m) (Fin 0) = true) by now apply gt_zero_Fin.
    rewrite Hgt.
    destruct (after_withdrawal_positive d Hm Cd Gds) as (G1 & _ & _).
    destruct (after_withdrawal_positive c Hm Cc Gcs) as (G2 & _ & _).
    constructor; cbn [pending_debtors pending_creditors emitted].
    + split; auto.
    + apply Forall_app. split; auto. constructor; auto.
      exists m. simpl. auto.
    + destruct (after_withdrawal_accounting (fun _ => true) d ds Cd) as [-> _]. exact Hid.
    + destruct (after_withdrawal_accounting (fun _ => true) c cs Cc) as [-> _]. exact Hic.
    + intros Hfin sel.
      destruct (after_withdrawal_accounting sel d ds Cd) as [_ H].
      rewrite Hid in H. specialize (H Hfin). specialize (Hd Hfin sel).
      rewrite sent_sum_snoc. unfold entry_value. simpl.
      destruct (sel (account_id d)); lra.
    + intros Hfin sel.
      destruct (after_withdrawal_accounting sel c cs Cc) as [_ H].
      rewrite Hic in H. specialize (H Hfin). specialize (Hc Hfin sel).
      rewrite received_sum_snoc. unfold entry_value. simpl.
      destruct (sel (account_id c)); lra.
Qed.

Lemma accounted_iterate (ds0 cs0 : list Account) (n : nat) (v : View) :
  has_infinite ds0 && has_infinite cs0 = false ->
  accounted ds0 cs0 v -> accounted ds0 cs0 (view_iterate n v).
Proof.
  intro Hnot. revert v; induction n as [|n IH]; intros v H; simpl; auto.
  destruct (view_cond v) eqn:E; auto.
  apply IH. now apply accounted_step.
Qed.

Lemma good_not_dead (v : View) : good v -> ~ dead v.
Proof.
  intros [Gd _] (d & ds & c & cs & Ed & _ & Hd & _).
  rewrite Ed in Gd. inversion Gd as [|? ? Pd _]; subst.
  unfold positive_account, positive in Pd. rewrite Hd in Pd. discriminate.
Qed.

Lemma accounted_initial (ds0 cs0 : list Account) :
  Forall positive_account ds0 -> Forall positive_account cs0 ->
  accounted ds0 cs0 (mkView ds0 cs0 []).
Proof.
  intros Hd Hc. constructor; simpl; auto.
  - split; auto.
  - intros _ sel. unfold sent_sum. simpl. ring.
  - intros _ sel. unfold received_sum. simpl. ring.
Qed.

(** Unless both arrays hold an [Infinity] the loop ends within as many
    passes as there are accounts, in a state that accounts for every
    amount. *)
Lemma loop_ends (balances : list RoundedBalance) :
  has_infinite (initial_debtors balances) && has_infinite (initial_creditors balances) = false ->
  let v := view_iterate (view_size (initial_view balances)) (initial_view balances) in
  accounted (initial_debtors balances) (initial_creditors balances) v
  /\ view_cond v = false
  /\ buildSettlementPlan balances = Some (emitted v).
Proof.
  intros Hnot v.
  assert (Hacc : accounted (initial_debtors balances) (initial_creditors balances) v).
  { apply accounted_iterate; auto.
    destruct (initial_view_good balances) as [Gd Gc].
    now apply accounted_initial. }
  assert (Hc : view_cond v = false).
  { destruct (@view_iterate_outcome (view_size (initial_view balances))
                                    (initial_view balances)) as [[_ H]|H]; auto.
    - apply initial_view_good.
    - exfalso. apply (good_not_dead (acc_good Hacc)). exact H. }
  split; [exact Hacc|split; [exact Hc|]].
  rewrite buildSettlementPlan_view. fold v. simpl. now rewrite Hc.
Qed.

End AccountingFacts.

(** * Totals *)

Section TotalFacts.












End TotalFacts.

Section ExitFacts.





End ExitFacts.

Section TruncationFacts.






End TruncationFacts.

(** * Applying a plan to the balances *)

Section SettlingFacts.



Lemma finite_balances_accounts (balances : list RoundedBalance) :
  all_finite (map roundedDiff balances) ->
  has_infinite (initial_debtors balances) = false
  /\ has_infinite (initial_creditors balances) = false.
Proof.
  unfold initial_debtors, initial_creditors, all_finite. rewrite Forall_map.
  induction 1 as [|b t Hb _ [IH1 IH2]]; simpl; auto.
  unfold is_debtor, is_creditor.
  destruct (roundedDiff b) as [q| | |] eqn:E; try discriminate.
  split.
  - destruct (lt (Fin q) (Fin 0)); simpl; auto.
    unfold infinite_account. simpl. now rewrite E.
  - destruct (gt (Fin q) (Fin 0)); simpl; auto.
    unfold infinite_account. simpl. now rewrite E.
Qed.





End SettlingFacts.

Section ZeroSumFacts.




(** With finite differences the call returns. *)
Lemma finite_balances_return (balances : list RoundedBalance) :
  all_finite (map roundedDiff balances) ->
  exists plan, buildSettlementPlan balances = Some plan.
Proof.
  intro Hfin. destruct (finite_balances_accounts balances Hfin) as [Id Ic].
  assert (Hnot : has_infinite (initial_debtors balances)
                 && has_infinite (initial_creditors balances) = false)
    by now rewrite Id.
  destruct (loop_ends balances Hnot) as (_ & _ & Hplan). eauto.
Qed.

End ZeroSumFacts.

(** * The properties of the specification *)









(** C4. When at least one balance is not zero, the number of entries that
    [buildSettlementPlan] emits is at most the number of balances with a
    positive [roundedDiff] plus the number of balances with a negative
    [roundedDiff], minus one: after any number of passes of the loop, and in
    the plan that is returned (one is, when the differences are finite). *)
Theorem settlement_count_bound (balances : list RoundedBalance) :
  (1 <= length (filter is_creditor balances) + length (filter is_debtor balances))%nat ->
  (forall n,
      (length (settlements (iterate n (initial_state balances))) + 1
       <= length (filter is_creditor balances) + length (filter is_debtor balances))%nat)
  /\ (forall plan,
         buildSettlementPlan balances = Some plan ->
         (length plan + 1
          <= length (filter is_creditor balances) + length (filter is_debtor balances))%nat)
  /\ (all_finite (map roundedDiff balances) ->
      exists plan, buildSettlementPlan balances = Some plan).
Proof.
  intro Hone.
  assert (Hall : forall n,
             (length (settlements (iterate n (initial_state balances))) + 1
              <= length (filter is_creditor balances)
                 + length (filter is_debtor balances))%nat).
  { intro n. rewrite settlements_iterate.
    assert (Hinit : count_inv (length (filter is_creditor balances)
                               + length (filter is_debtor balances))
                              (initial_view balances)).
    { left. split; [apply initial_view_good|].
      unfold view_size, initial_view, initial_debtors, initial_creditors. simpl.
      rewrite !length_map. lia. }
    destruct (count_inv_iterate n Hinit) as [(_ & _ & H)|(_ & H)]; exact H. }
  split; [exact Hall|]. split; [|apply finite_balances_return].
  intros plan Hplan. rewrite (returned_plan _ Hplan). apply Hall.
Qed.

(** The three balances of the dinner: two entries, and three balances
    that are not zero. *)
Lemma settlement_count_bound_witness :
  buildSettlementPlan
    [mkRoundedBalance (Samples.bal Samples.A 2000) (Fin 2000);
     mkRoundedBalance (Samples.bal Samples.B (-1000)) (Fin (-1000));
     mkRoundedBalance (Samples.bal Samples.C (-1000)) (Fin (-1000))]
  = Some [mkSettlementEntry "B" "A" (Fin 1000); mkSettlementEntry "C" "A" (Fin 1000)]
  /\ (2 + 1 <= 1 + 2)%nat.
Proof.
  split; [reflexivity|].
  refine (proj1 (proj2 (@settlement_count_bound
                   [mkRoundedBalance (Samples.bal Samples.A 2000) (Fin 2000);
                    mkRoundedBalance (Samples.bal Samples.B (-1000)) (Fin (-1000));
                    mkRoundedBalance (Samples.bal Samples.C (-1000)) (Fin (-1000))] _))
                [mkSettlementEntry "B" "A" (Fin 1000); mkSettlementEntry "C" "A" (Fin 1000)]
                _).
  - simpl. lia.
  - reflexivity.
Defined.

(** C5, as amended. Every entry that [buildSettlementPlan] emits has
    [amount > 0], and when no participant id is carried both by a balance
    with a negative [roundedDiff] and by a balance with a positive one (as
    when every participant has one balance), no entry has [from] equal to
    [to]. This holds after any number of passes of the loop and in the plan
    that is returned (one is, when the differences are finite). *)
Theorem no_self_payment (balances : list RoundedBalance) :
  (forall n e,
      In e (settlements (iterate n (initial_state balances))) ->
      gt (amount e) (Fin 0) = true
      /\ (no_id_on_both_sides balances -> from e <> to e))
  /\ (forall plan e,
         buildSettlementPlan balances = Some plan -> In e plan ->
         gt (amount e) (Fin 0) = true
         /\ (no_id_on_both_sides balances -> from e <> to e))
  /\ (all_finite (map roundedDiff balances) ->
      exists plan, buildSettlementPlan balances = Some plan).
Proof.
  assert (Hall : forall n e,
             In e (settlements (iterate n (initial_state balances))) ->
             gt (amount e) (Fin 0) = true
             /\ (no_id_on_both_sides balances -> from e <> to e)).
  { intros n e. rewrite settlements_iterate. intro Hin.
    destruct (ids_inv_iterate n (ids_inv_initial balances)) as (_ & _ & He).
    destruct (He e Hin) as (Hf & Ht & Hpos). split; auto.
    intro Hdisjoint.
    apply initial_debtor_ids in Hf. destruct Hf as (b1 & H1 & D1 & <-).
    apply initial_creditor_ids in Ht. destruct Ht as (b2 & H2 & C2 & <-).
    now apply Hdisjoint. }
  split; [exact Hall|]. split; [|apply finite_balances_return].
  intros plan e Hplan. rewrite (returned_plan _ Hplan). apply Hall.
Qed.

(** The balances of the dinner: the entry from C to A. *)
Lemma no_self_payment_witness :
  buildSettlementPlan
    [mkRoundedBalance (Samples.bal Samples.A 2000) (Fin 2000);
     mkRoundedBalance (Samples.bal Samples.B (-1000)) (Fin (-1000));
     mkRoundedBalance (Samples.bal Samples.C (-1000)) (Fin (-1000))]
  = Some [mkSettlementEntry "B" "A" (Fin 1000); mkSettlementEntry "C" "A" (Fin 1000)]
  /\ gt (amount (mkSettlementEntry "C" "A" (Fin 1000))) (Fin 0) = true
  /\ from (mkSettlementEntry "C" "A" (Fin 1000)) <> to (mkSettlementEntry "C" "A" (Fin 1000)).
Proof.
  split; [reflexivity|].
  destruct (proj1 (proj2 (@no_self_payment
           [mkRoundedBalance (Samples.bal Samples.A 2000) (Fin 2000);
            mkRoundedBalance (Samples.bal Samples.B (-1000)) (Fin (-1000));
            mkRoundedBalance (Samples.bal Samples.C (-1000)) (Fin (-1000))]))
           [mkSettlementEntry "B" "A" (Fin 1000); mkSettlementEntry "C" "A" (Fin 1000)]
           (mkSettlementEntry "C" "A" (Fin 1000))) as [Hpos Hne].
  - reflexivity.
  - simpl. auto.
  - split; [exact Hpos|]. apply Hne.
    intros b1 b2 H1 H2 Hd Hc. simpl in H1, H2.
    destruct H1 as [<-|[<-|[<-|[]]]]; destruct H2 as [<-|[<-|[<-|[]]]];
      try discriminate Hd; try discriminate Hc; simpl; discriminate.
Defined.

(** Two balances of the same participant, one positive and one negative,
    are settled by a payment of the participant to themselves. *)
Lemma same_id_on_both_sides_pays_itself :
  buildSettlementPlan
    [mkRoundedBalance (Samples.bal Samples.A 100) (Fin 100);
     mkRoundedBalance (Samples.bal Samples.A (-100)) (Fin (-100))]
  = Some [mkSettlementEntry "A" "A" (Fin 100)].
Proof. reflexivity. Qed.

(** C6, as amended. The last step of [calculateBalances] rounds the
    accumulated [paid] and [shouldPay] of every participant with
    [Math.round] and then takes [diff = paid - shouldPay]. [Math.round]
    gives the nearest integer and sends a half up, towards [+Infinity]:
    that is away from zero for the values that are not negative, and
    towards zero for the negative ones. *)
Theorem finalization_rounds_half_up
        (participants : list Participant) (expenses : list Expense) :
  calculateBalances participants expenses
  = map (fun entry =>
           mkCalculatedBalance
             (entry_participant entry)
             (Math_round (entry_paid entry))
             (Math_round (entry_shouldPay entry))
             (sub (Math_round (entry_paid entry)) (Math_round (entry_shouldPay entry))))
        (ledger_values (accumulate participants expenses))
  /\ (forall q, exists z : Z,
         Math_round (Fin q) = Fin (inject_Z z)
         /\ q - (1 # 2) < inject_Z z /\ inject_Z z <= q + (1 # 2))
  /\ (forall z : Z, Math_round (Fin (inject_Z z + (1 # 2))) = Fin (inject_Z (z + 1)))
  /\ (forall q, 0 <= q ->
         Math_round (Fin q) = Fin (inject_Z (round_half_away_from_zero q)))
  /\ (forall a, Number_isFinite a = false -> Math_round a = a).
Proof.
  split; [reflexivity|]. split; [exact Math_round_nearest|].
  split; [exact Math_round_half_goes_up|]. split.
  - intros q Hq. unfold round_half_away_from_zero.
    apply Qle_bool_iff in Hq. now rewrite Hq.
  - intros [q| | |] H; try reflexivity. discriminate.
Qed.

(** A share of -5/2 is the whole of what A should pay: the code rounds it
    to -2, a half away from zero would be -3. *)
Lemma negative_half_rounds_towards_zero :
  let expense := mkExpense "e1" "lunch" (Fin 1) "A" [mkExpenseShare "A" (Fin (-5 # 2))] in
  calculateBalances [Samples.A] [expense]
  = [mkCalculatedBalance Samples.A (Fin 1) (Fin (-2)) (Fin 3)]
  /\ round_half_away_from_zero (-5 # 2) = (-3)%Z
  /\ Math_round (Fin (-5 # 2)) <> Fin (inject_Z (round_half_away_from_zero (-5 # 2))).
Proof.
  intro expense. repeat split. discriminate.
Qed.


(** C8. [calculateBalances] is a total function: a lookup that finds nothing
    is passed over, nothing is raised. An expense with [amount <= 0] changes
    no [paid] and no [shouldPay]: the balances are those of the list without
    it. An expense whose [payerId] is the id of no participant adds to no
    [paid]. A share whose [participantId] is the id of no participant adds to
    no [shouldPay], and the rest of its expense is processed as if the share
    were not there. In [roundBalancesToUnit] a [diff] that is not finite is
    rounded to [0], and for an integer unit other than zero the rounded
    differences are those of the list in which such a [diff] is [0]. *)
Theorem bad_input_is_passed_over :
  (forall participants expenses1 expense expenses2,
      le (expense_amount expense) (Fin 0) = true ->
      calculateBalances participants (expenses1 ++ expense :: expenses2)
      = calculateBalances participants (expenses1 ++ expenses2))
  /\ (forall participants expenses1 expense expenses2,
         (forall p, In p participants -> id p <> payerId expense) ->
         map paid (calculateBalances participants (expenses1 ++ expense :: expenses2))
         = map paid (calculateBalances participants (expenses1 ++ expenses2)))
  /\ (forall participants expenses1 expense expenses2 shares1 share shares2,
         shares expense = shares1 ++ share :: shares2 ->
         (forall p, In p participants -> id p <> participantId share) ->
         calculateBalances participants (expenses1 ++ expense :: expenses2)
         = calculateBalances participants
             (expenses1 ++ with_shares expense (shares1 ++ shares2) :: expenses2))
  /\ (forall value unit,
         Number_isFinite value = false -> roundToUnit value unit = Fin 0)
  /\ (forall balances (z : Z),
         z <> 0%Z ->
         map roundedDiff (roundBalancesToUnit balances (Fin (inject_Z z)))
         = map roundedDiff
             (roundBalancesToUnit (map finite_diff_or_zero balances) (Fin (inject_Z z)))).
Proof.
  split; [|split; [|split; [|split]]].
  - intros participants expenses1 expense expenses2 Hle.
    apply calculateBalances_ext. intros p entry _.
    unfold expenses_effect. rewrite !fold_left_app. simpl.
    unfold expense_effect at 2. now rewrite Hle.
  - intros participants expenses1 expense expenses2 Hpayer.
    apply calculateBalances_paid_ext. intros p Hp.
    unfold paid_amounts. rewrite !filter_app. simpl.
    destruct (String.eqb_spec (id p) (payerId expense)) as [Heq|_].
    + exfalso. now apply (Hpayer p Hp).
    + now rewrite andb_false_r.
  - intros participants expenses1 expense expenses2 shares1 share shares2 Hsh Hunknown.
    apply calculateBalances_ext. intros p entry Hp.
    unfold expenses_effect. rewrite !fold_left_app. simpl. f_equal.
    apply expense_effect_unknown_share with (share := share); auto.
    destruct (String.eqb_spec (id p) (participantId share)) as [Heq|_]; auto.
    exfalso. now apply (Hunknown p Hp).
  - exact roundToUnit_not_finite.
  - intros balances z Hz. rewrite !roundBalancesToUnit_roundedDiff. f_equal.
    rewrite map_map. apply map_ext. intro b. unfold finite_diff_or_zero.
    destruct (Number_isFinite (diff b)) eqn:E; auto. simpl.
    rewrite roundToUnit_zero_integer_unit by exact Hz.
    now rewrite roundToUnit_not_finite.
Qed.



(** C10. [roundBalancesToUnit] returns as many elements as it was given, in
    the same order; every element carries the balance it was made from with
    its [participant], [paid], [shouldPay] and [diff] unchanged; and for all
    indices but at most one the added [roundedDiff] is the value
    [roundToUnit(diff, unit)] of the first [map], that is
    [Math.round(diff / unit) * unit] when [diff] is finite and [0] when it
    is not. *)
Theorem roundBalancesToUnit_frame (balances : list CalculatedBalance) (unit : number) :
  length (roundBalancesToUnit balances unit) = length balances
  /\ map balance (roundBalancesToUnit balances unit) = balances
  /\ (exists k, forall i, i <> k ->
        nth_error (map roundedDiff (roundBalancesToUnit balances unit)) i
        = nth_error (map (fun b => roundToUnit (diff b) unit) balances) i)
  /\ (forall b d, In b balances -> diff b = Fin d ->
        roundToUnit (diff b) unit = mul (Math_round (div (Fin d) unit)) unit)
  /\ (forall b, In b balances -> Number_isFinite (diff b) = false ->
        roundToUnit (diff b) unit = Fin 0).
Proof.
  destruct (roundBalancesToUnit_shape balances unit) as [k Hk].
  rewrite Hk. split; [|split; [|split; [|split]]].
  - now rewrite modify_nth_length, round_each_length.
  - rewrite map_modify_nth by reflexivity. apply round_each_balance.
  - exists k. intros i Hi.
    rewrite map_modify_nth_commute
      with (h := fun x => sub x (total_rounded (round_each balances unit)))
      by reflexivity.
    rewrite nth_error_modify_nth_neq by auto.
    now rewrite round_each_roundedDiff.
  - intros b d _ ->. reflexivity.
  - intros b _. apply roundToUnit_not_finite.
Qed.

(** * Further properties of the code *)

(** ** Rounding to the unit *)

Section FloorFacts.




End FloorFacts.

Section UnitFacts.



Lemma roundToUnit_degenerate (d : Q) (unit : number) :
  (forall u, unit = Fin u -> u == 0) -> roundToUnit (Fin d) unit = NaN.
Proof.
  intro H. unfold roundToUnit. simpl.
  destruct unit as [u| | |]; simpl; auto.
  specialize (H u eq_refl).
  assert (E : Qeqb u 0 = true) by now apply Qeqb_true.
  rewrite E.
  assert (Hs : Qsign u = Eq) by (unfold Qsign; now apply Qeq_alt).
  destruct (Qsign d); simpl; rewrite ?Hs; reflexivity.
Qed.

End UnitFacts.





Section MultipleFacts.
Variable u : Q.










End MultipleFacts.

Section SumCompat.





End SumCompat.

Section ResultFacts.



End ResultFacts.

(** X3. With a unit that is [0], [NaN], [Infinity] or [-Infinity],
    [roundToUnit] sends every finite value to [NaN]. [roundBalancesToUnit]
    then has [NaN] among the rounded differences it returns as soon as one
    [diff] is finite, and their sum is [NaN], not zero. *)
Theorem degenerate_unit_gives_NaN (unit : number) :
  (forall u, unit = Fin u -> u == 0) ->
  (forall d, roundToUnit (Fin d) unit = NaN)
  /\ (forall balances,
         (exists b, In b balances /\ Number_isFinite (diff b) = true) ->
         In NaN (map roundedDiff (roundBalancesToUnit balances unit))
         /\ sum_numbers (map roundedDiff (roundBalancesToUnit balances unit)) = NaN).
Proof.
  intro Hunit. split.
  - intro d. now apply roundToUnit_degenerate.
  - intros balances (b & Hb & Hfin).
    assert (Hin : In NaN (map roundedDiff (roundBalancesToUnit balances unit))).
    { destruct (diff b) as [d| | |] eqn:Ed; try discriminate.
      destruct (In_nth_error _ _ Hb) as [i Hi].
      destruct (roundBalancesToUnit_shape balances unit) as [k ->].
      assert (Hr : nth_error (round_each balances unit) i
                   = Some (mkRoundedBalance b NaN)).
      { unfold round_each. rewrite nth_error_map, Hi. simpl.
        now rewrite Ed, roundToUnit_degenerate. }
      apply in_map_iff.
      destruct (Nat.eq_dec k i) as [->|Hne].
      - eexists. split; [|eapply nth_error_In; rewrite nth_error_modify_nth_eq, Hr; reflexivity].
        reflexivity.
      - exists (mkRoundedBalance b NaN). split; [reflexivity|].
        eapply nth_error_In. rewrite nth_error_modify_nth_neq by exact Hne. exact Hr. }
    split; [exact Hin|].
    now apply fold_left_add_In_NaN.
Qed.

Lemma degenerate_unit_gives_NaN_witness :
  roundToUnit (Fin 150) (Fin 0) = NaN
  /\ map roundedDiff
         (roundBalancesToUnit [Samples.bal Samples.A 150; Samples.bal Samples.B (-150)] (Fin 0))
     = [NaN; NaN].
Proof.
  split.
  - apply (@degenerate_unit_gives_NaN (Fin 0)).
    intros u Hu. inversion Hu. reflexivity.
  - reflexivity.
Defined.






Section ErrorFacts.




End ErrorFacts.



(** ** The plan, entry by entry *)

Section EmittedFacts.

Lemma view_step_emitted (v : View) :
  emitted (view_step v) = emitted v
  \/ exists e, emitted (view_step v) = emitted v ++ [e].
Proof.
  unfold view_step.
  destruct (pending_debtors v) as [|d ds]; auto.
  destruct (pending_creditors v) as [|c cs]; auto.
  cbn [emitted].
  destruct (gt (Math_min (account_amount d) (account_amount c)) (Fin 0)).
  - right. eexists. reflexivity.
  - now left.
Qed.

Lemma view_iterate_emitted_length (n : nat) (v : View) :
  (length (emitted v) <= length (emitted (view_iterate n v)))%nat.
Proof.
  revert v; induction n as [|n IH]; intro v; simpl; auto.
  destruct (view_cond v); auto.
  eapply Nat.le_trans; [|apply IH].
  destruct (view_step_emitted v) as [->|[e ->]]; auto.
  rewrite length_app. simpl. lia.
Qed.

Lemma initial_view_cond (balances : list RoundedBalance) :
  view_cond (initial_view balances) = false
  <-> filter is_debtor balances = [] \/ filter is_creditor balances = [].
Proof.
  unfold view_cond, initial_view, initial_debtors, initial_creditors. simpl.
  destruct (filter is_debtor balances) as [|d ds]; simpl.
  - split; auto.
  - destruct (filter is_creditor balances) as [|c cs]; simpl.
    + split; auto.
    + split; [discriminate|]. intros [H|H]; discriminate.
Qed.

End EmittedFacts.

(** X7. [buildSettlementPlan] returns the empty plan exactly when no balance
    has a negative [roundedDiff] or no balance has a positive one. *)
Theorem plan_is_empty_iff_one_side_is_empty (balances : list RoundedBalance) :
  buildSettlementPlan balances = Some []
  <-> filter is_debtor balances = [] \/ filter is_creditor balances = [].
Proof.
  rewrite buildSettlementPlan_view. cbv zeta.
  set (v0 := initial_view balances). set (N := view_size v0).
  split.
  - intro H. apply initial_view_cond. fold v0.
    destruct (view_cond v0) eqn:E; auto. exfalso.
    pose proof (view_cond_size v0 E) as Hs. fold N in Hs.
    destruct N as [|n]; [lia|].
    simpl in H. rewrite E in H.
    destruct (good_step (initial_view_good balances) E) as [(_ & _ & He)|(_ & He)];
      fold v0 in He;
      pose proof (view_iterate_emitted_length n (view_step v0)) as Hl;
      destruct (view_cond (view_iterate n (view_step v0))); try discriminate;
      inversion H as [Hnil]; rewrite Hnil in Hl; simpl in *; lia.
  - intro H. apply initial_view_cond in H. fold v0 in H.
    rewrite view_iterate_stopped by exact H. now rewrite H.
Qed.

(** X8. In a returned plan every entry goes from a participant whose balance
    has a negative [roundedDiff] to a participant whose balance has a
    positive one: who is settled, or has [NaN], neither pays nor is paid. *)
Theorem payments_go_from_debtors_to_creditors
        (balances : list RoundedBalance) (plan : list SettlementEntry) (e : SettlementEntry) :
  buildSettlementPlan balances = Some plan -> In e plan ->
  (exists b, In b balances /\ lt (roundedDiff b) (Fin 0) = true
             /\ id (participant (balance b)) = from e)
  /\ (exists b, In b balances /\ gt (roundedDiff b) (Fin 0) = true
                /\ id (participant (balance b)) = to e).
Proof.
  intros Hplan Hin. rewrite (returned_plan _ Hplan), settlements_iterate in Hin.
  destruct (ids_inv_iterate (view_size (initial_view balances)) (ids_inv_initial balances))
    as (_ & _ & He).
  destruct (He e Hin) as (Hf & Ht & _). split.
  - now apply initial_debtor_ids.
  - now apply initial_creditor_ids.
Qed.

Lemma payments_go_from_debtors_to_creditors_witness :
  (exists b, In b [mkRoundedBalance (Samples.bal Samples.A 2000) (Fin 2000);
                   mkRoundedBalance (Samples.bal Samples.B (-1000)) (Fin (-1000));
                   mkRoundedBalance (Samples.bal Samples.C (-1000)) (Fin (-1000))]
             /\ lt (roundedDiff b) (Fin 0) = true
             /\ id (participant (balance b)) = "C"%string)
  /\ (exists b, In b [mkRoundedBalance (Samples.bal Samples.A 2000) (Fin 2000);
                      mkRoundedBalance (Samples.bal Samples.B (-1000)) (Fin (-1000));
                      mkRoundedBalance (Samples.bal Samples.C (-1000)) (Fin (-1000))]
                /\ gt (roundedDiff b) (Fin 0) = true
                /\ id (participant (balance b)) = "A"%string).
Proof.
  apply (@payments_go_from_debtors_to_creditors
           [mkRoundedBalance (Samples.bal Samples.A 2000) (Fin 2000);
            mkRoundedBalance (Samples.bal Samples.B (-1000)) (Fin (-1000));
            mkRoundedBalance (Samples.bal Samples.C (-1000)) (Fin (-1000))]
           [mkSettlementEntry "B" "A" (Fin 1000); mkSettlementEntry "C" "A" (Fin 1000)]
           (mkSettlementEntry "C" "A" (Fin 1000))).
  - reflexivity.
  - simpl. auto.
Defined.

Section OverpayFacts.




End OverpayFacts.



Section PairFacts.

Lemma after_withdrawal_account_ids (amount : number) (account : Account) (rest : list Account) :
  map account_id (after_withdrawal amount account rest) = map account_id rest
  \/ map account_id (after_withdrawal amount account rest)
     = account_id account :: map account_id rest.
Proof.
  unfold after_withdrawal. destruct (strict_eq _ _); simpl; auto.
Qed.

Lemma pair_not_emitted (v : View) (d c : Account) (ds cs : list Account) :
  pending_debtors v = d :: ds -> pending_creditors v = c :: cs ->
  separated v ->
  ~ In (account_id d, account_id c) (map pair_of (emitted v)).
Proof.
  intros Ed Ec Hsep Hin. apply in_map_iff in Hin.
  destruct Hin as (e & Hpair & He). unfold pair_of in Hpair.
  inversion Hpair as [[Hf Ht]].
  destruct (Hsep e He) as [H|H]; apply H.
  - rewrite Ed, Hf. now left.
  - rewrite Ec, Ht. now left.
Qed.

Lemma NoDup_snoc (A : Type) (l : list A) (x : A) :
  NoDup l -> ~ In x l -> NoDup (l ++ [x]).
Proof.
  intros Hl Hx. induction Hl as [|y t Hy _ IH]; simpl.
  - constructor; [intros []|constructor].
  - constructor.
    + intro Hin. apply in_app_or in Hin. destruct Hin as [Hin|[->|[]]].
      * contradiction.
      * apply Hx. now left.
    + apply IH. intro Hin. apply Hx. now right.
Qed.

(** A pass on positive amounts that are not both infinite keeps the pairs
    emitted so far distinct and behind the cursors. *)
Lemma pairs_inv_step (v : View) :
  good v -> view_cond v = true -> pairs_inv v ->
  NoDup (map pair_of (emitted (view_step v)))
  /\ (good (view_step v) -> pairs_inv (view_step v)).
Proof.
  intros [Gd Gc] Hcond (Nd & Nc & Np & Hsep).
  destruct (view_cond_true v Hcond) as (d & ds & c & cs & Ed & Ec).
  pose proof (pair_not_emitted Ed Ec Hsep) as Hnew.
  unfold view_step. rewrite Ed, Ec in *.
  inversion Gd as [|? ? Pd Gds]; subst. inversion Gc as [|? ? Pc Gcs]; subst.
  cbn [map] in Nd, Nc.
  inversion Nd as [|? ? Hd0 Nds]; subst. inversion Nc as [|? ? Hc0 Ncs]; subst.
  destruct (Math_min_cases Pd Pc) as [[Hdi Hci]|(m & Hmin & Hm & Cd & Cc & Hex)].
  - rewrite Hdi, Hci. cbn [Math_min gt lt emitted]. split.
    + rewrite map_app. apply NoDup_snoc; auto.
    + intros [G _]. exfalso. cbn [pending_debtors] in G.
      unfold after_withdrawal, withdraw in G. rewrite Hdi in G. simpl in G.
      inversion G as [|? ? P _]; subst. discriminate P.
  - rewrite Hmin.
    assert (Hgt : gt (Fin m) (Fin 0) = true) by now apply gt_zero_Fin.
    rewrite Hgt. cbn [emitted pending_debtors pending_creditors].
    assert (Hp : NoDup (map pair_of
                   (emitted v ++ [mkSettlementEntry (account_id d) (account_id c) (Fin m)]))).
    { rewrite map_app. apply NoDup_snoc; auto. }
    split; [exact Hp|]. intros _.
    destruct (after_withdrawal_positive d Hm Cd Gds) as (_ & _ & X1).
    destruct (after_withdrawal_positive c Hm Cc Gcs) as (_ & _ & X2).
    assert (Sd : forall x, In x (map account_id (after_withdrawal (Fin m) d ds)) ->
                           In x (account_id d :: map account_id ds)).
    { intros x Hx. destruct (after_withdrawal_account_ids (Fin m) d ds) as [H|H];
        rewrite H in Hx; [now right|exact Hx]. }
    assert (Sc : forall x, In x (map account_id (after_withdrawal (Fin m) c cs)) ->
                           In x (account_id c :: map account_id cs)).
    { intros x Hx. destruct (after_withdrawal_account_ids (Fin m) c cs) as [H|H];
        rewrite H in Hx; [now right|exact Hx]. }
    split; [|split; [|split]]; cbn [emitted pending_debtors pending_creditors].
    + destruct (after_withdrawal_account_ids (Fin m) d ds) as [H|H]; rewrite H; auto;
        constructor; auto.
    + destruct (after_withdrawal_account_ids (Fin m) c cs) as [H|H]; rewrite H; auto;
        constructor; auto.
    + exact Hp.
    + intros e He. cbn [emitted pending_debtors pending_creditors] in *.
      apply in_app_or in He. destruct He as [He|[<-|[]]].
      * destruct (Hsep e He) as [H|H]; [left|right]; intro Hin; apply H;
          rewrite ?Ed, ?Ec; cbn [map]; auto.
      * cbn [from to]. destruct Hex as [Hex|Hex].
        -- left. rewrite (X1 Hex). exact Hd0.
        -- right. rewrite (X2 Hex). exact Hc0.
Qed.

Lemma pairs_iterate (n : nat) (v : View) :
  (good v /\ pairs_inv v) \/ (dead v /\ NoDup (map pair_of (emitted v))) ->
  NoDup (map pair_of (emitted (view_iterate n v))).
Proof.
  revert v; induction n as [|n IH]; intros v H; simpl.
  - destruct H as [[_ (_ & _ & H & _)]|[_ H]]; exact H.
  - destruct (view_cond v) eqn:E.
    + apply IH. destruct H as [[G P]|[D P]].
      * destruct (pairs_inv_step G E P) as [Hp Hinv].
        destruct (good_step G E) as [(G' & _)|(D' & _)].
        -- left. auto.
        -- right. auto.
      * destruct (dead_step D) as [-> _]. right. auto.
    + destruct H as [[_ (_ & _ & H & _)]|[_ H]]; exact H.
Qed.

Lemma filter_keeps_keys_distinct
      (A B : Type) (key : A -> B) (keep : A -> bool) (items : list A) :
  NoDup (map key items) -> NoDup (map key (filter keep items)).
Proof.
  induction items as [|x t IH]; simpl; intro H; auto.
  inversion H as [|? ? Hx Ht]; subst.
  destruct (keep x); simpl; auto.
  constructor; auto.
  intro Hin. apply Hx. apply in_map_iff in Hin. destruct Hin as (y & Hy & Hin).
  apply filter_In in Hin. destruct Hin as [Hin _].
  rewrite <- Hy. now apply in_map.
Qed.

Lemma initial_pairs_inv (balances : list RoundedBalance) :
  NoDup (map balance_id balances) -> pairs_inv (initial_view balances).
Proof.
  intro Hnd. split; [|split; [|split]]; simpl.
  - unfold initial_debtors. rewrite map_map.
    apply (filter_keeps_keys_distinct balance_id is_debtor _ Hnd).
  - unfold initial_creditors. rewrite map_map.
    apply (filter_keeps_keys_distinct balance_id is_creditor _ Hnd).
  - constructor.
  - intros e [].
Qed.

End PairFacts.

(** X10. For balances with distinct participant ids no two entries of the
    plan have the same payer and the same receiver, after any number of
    passes of the loop and in the plan that is returned. The component
    renders the entries under keys made from these two ids. *)
Theorem payment_pairs_are_distinct (balances : list RoundedBalance) :
  NoDup (map (fun b => id (participant (balance b))) balances) ->
  (forall n,
      NoDup (map (fun e => (from e, to e))
                 (settlements (iterate n (initial_state balances)))))
  /\ (forall plan,
         buildSettlementPlan balances = Some plan ->
         NoDup (map (fun e => (from e, to e)) plan)).
Proof.
  intro Hnd.
  assert (Hall : forall n,
             NoDup (map (fun e => (from e, to e))
                        (settlements (iterate n (initial_state balances))))).
  { intro n. rewrite settlements_iterate.
    apply (pairs_iterate n). left. split.
    - apply initial_view_good.
    - now apply initial_pairs_inv. }
  split; [exact Hall|].
  intros plan Hplan. rewrite (returned_plan _ Hplan). apply Hall.
Qed.

Lemma payment_pairs_are_distinct_witness :
  NoDup (map (fun e => (from e, to e))
             [mkSettlementEntry "B" "A" (Fin 1000); mkSettlementEntry "C" "A" (Fin 1000)]).
Proof.
  refine (proj2 (@payment_pairs_are_distinct
                   [mkRoundedBalance (Samples.bal Samples.A 2000) (Fin 2000);
                    mkRoundedBalance (Samples.bal Samples.B (-1000)) (Fin (-1000));
                    mkRoundedBalance (Samples.bal Samples.C (-1000)) (Fin (-1000))] _)
                _ _).
  - repeat constructor; simpl; intuition discriminate.
  - reflexivity.
Defined.

Section MultiplePlanFacts.
Variable u : Q.








End MultiplePlanFacts.



Section IgnoredFacts.

Lemma neither_sign (a : number) :
  a = NaN \/ num_eq a (Fin 0) -> gt a (Fin 0) = false /\ lt a (Fin 0) = false.
Proof.
  intros [->|H]; [split; reflexivity|].
  destruct a as [q| | |]; try contradiction. simpl in H.
  unfold gt. simpl. split; apply Qltb_false; lra.
Qed.

Lemma initial_state_without (l1 l2 : list RoundedBalance) (b : RoundedBalance) :
  is_debtor b = false -> is_creditor b = false ->
  initial_state (l1 ++ b :: l2) = initial_state (l1 ++ l2).
Proof.
  intros Hd Hc. rewrite !initial_state_eq.
  unfold initial_debtors, initial_creditors.
  rewrite !filter_app. simpl. now rewrite Hd, Hc.
Qed.

End IgnoredFacts.

(** X12. A balance whose [roundedDiff] is [NaN] or zero changes nothing:
    the plan is the plan of the list without it. *)
Theorem settled_balances_are_ignored
        (balances1 balances2 : list RoundedBalance) (b : RoundedBalance) :
  roundedDiff b = NaN \/ num_eq (roundedDiff b) (Fin 0) ->
  buildSettlementPlan (balances1 ++ b :: balances2)
  = buildSettlementPlan (balances1 ++ balances2).
Proof.
  intro H. destruct (neither_sign H) as [Hg Hl].
  unfold buildSettlementPlan. now rewrite initial_state_without.
Qed.

Lemma settled_balances_are_ignored_witness :
  buildSettlementPlan
    ([mkRoundedBalance (Samples.bal Samples.A 100) (Fin 100)]
       ++ mkRoundedBalance (Samples.bal Samples.C 0) NaN
       :: [mkRoundedBalance (Samples.bal Samples.B (-100)) (Fin (-100))])
  = buildSettlementPlan
      ([mkRoundedBalance (Samples.bal Samples.A 100) (Fin 100)]
         ++ [mkRoundedBalance (Samples.bal Samples.B (-100)) (Fin (-100))]).
Proof.
  apply settled_balances_are_ignored. left. reflexivity.
Defined.

Section PipelineFacts.





End PipelineFacts.



(** ** The balances, id by id *)

Section RegisterFacts.




Lemma ledger_get_set (key k : string) (v : LedgerEntry) (m : Ledger) :
  ledger_get key (ledger_set k v m)
  = if String.eqb k key then Some v else ledger_get key m.
Proof.
  induction m as [|[k' v'] t IH]; simpl.
  - destruct (String.eqb k key); reflexivity.
  - destruct (String.eqb_spec k' k) as [->|Hne]; simpl.
    + destruct (String.eqb k key); reflexivity.
    + rewrite IH. destruct (String.eqb_spec k' key) as [->|Hne']; auto.
      destruct (String.eqb_spec k key) as [->|]; [congruence|reflexivity].
Qed.

Lemma find_snoc (A : Type) (f : A -> bool) (l : list A) (x : A) :
  find f (l ++ [x])
  = match find f l with
    | Some y => Some y
    | None => if f x then Some x else None
    end.
Proof.
  induction l as [|y t IH]; simpl; auto.
  destruct (f y); auto.
Qed.

(** After the first loop the entry under [key] is a fresh entry for the
    last participant with this id. *)
Lemma registered_get (key : string) (participants : list Participant) (m : Ledger) :
  ledger_get key (fold_left register_participant participants m)
  = match last_with_id key participants with
    | Some p => Some (new_entry p)
    | None => ledger_get key m
    end.
Proof.
  unfold last_with_id.
  revert m; induction participants as [|p t IH]; intro m; simpl; auto.
  rewrite IH, find_snoc.
  destruct (find (fun p0 => String.eqb (id p0) key) (rev t)); auto.
  unfold register_participant. rewrite ledger_get_set.
  destruct (String.eqb (id p) key); reflexivity.
Qed.

Lemma ledger_get_In (k : string) (v : LedgerEntry) (m : Ledger) :
  NoDup (ledger_keys m) -> In (k, v) m -> ledger_get k m = Some v.
Proof.
  induction m as [|[k' v'] t IH]; simpl; intros Hnd Hin; [contradiction|].
  inversion Hnd as [|? ? Hk Ht]; subst.
  destruct Hin as [Heq|Hin].
  - inversion Heq; subst. now rewrite String.eqb_refl.
  - destruct (String.eqb_spec k' k) as [->|Hne]; auto.
    exfalso. apply Hk. unfold ledger_keys.
    change k with (fst (k, v)). now apply in_map.
Qed.

Lemma registered_entries (participants : list Participant) (k : string) (v : LedgerEntry) :
  In (k, v) (fold_left register_participant participants []) ->
  exists p, last_with_id k participants = Some p /\ id p = k /\ v = new_entry p.
Proof.
  intro Hin.
  assert (Hnd : NoDup (ledger_keys (fold_left register_participant participants []))).
  { apply registered_keys_NoDup. constructor. }
  pose proof (@ledger_get_In _ _ _ Hnd Hin) as Hget.
  rewrite registered_get in Hget.
  destruct (last_with_id k participants) as [p|] eqn:E; [|discriminate].
  exists p. split; auto. split.
  - unfold last_with_id in E. apply find_some in E. destruct E as [_ E].
    now apply String.eqb_eq in E.
  - now inversion Hget.
Qed.





End RegisterFacts.


Section IntegerFacts.







End IntegerFacts.

Section KeyFacts.
Variable A : Type.
Variable key : A -> string.
Variable val : A -> Q.






End KeyFacts.

Section ConservationFacts.









End ConservationFacts.



(** ** From the balances of the component to its plan *)

Section UnroundedFacts.

Lemma unrounded_classify (balances : list CalculatedBalance) (lists : list Account * list Account) :
  fold_left Unrounded.classify balances lists
  = fold_left classify (map unrounded balances) lists.
Proof.
  revert lists; induction balances as [|b t IH]; intro lists; simpl; auto.
Qed.

Lemma unrounded_initial_state (balances : list CalculatedBalance) :
  Unrounded.initial_state balances = initial_state (map unrounded balances).
Proof.
  unfold Unrounded.initial_state, initial_state. now rewrite unrounded_classify.
Qed.

Lemma unrounded_plan (balances : list CalculatedBalance) :
  Unrounded.buildSettlementPlan balances = buildSettlementPlan (map unrounded balances).
Proof.
  unfold Unrounded.buildSettlementPlan, buildSettlementPlan.
  now rewrite unrounded_initial_state.
Qed.

End UnroundedFacts.

(** X16. The [buildSettlementPlan] that reads [diff] is the
    [buildSettlementPlan] that reads [roundedDiff], applied to the balances
    with their [diff] as [roundedDiff]: the two loops start in the same
    state and return the same plan, or both never return. *)
Theorem both_planners_agree (balances : list CalculatedBalance) :
  Unrounded.initial_state balances
  = initial_state (map (fun b => mkRoundedBalance b (diff b)) balances)
  /\ Unrounded.buildSettlementPlan balances
     = buildSettlementPlan (map (fun b => mkRoundedBalance b (diff b)) balances).
Proof.
  split.
  - apply unrounded_initial_state.
  - apply unrounded_plan.
Qed.

Section AppPipelineFacts.



End AppPipelineFacts.



(** ** Participants added and removed *)

Section RemovalFacts.
Variable pid : string.

Lemma drop_participant_step (acc : list Expense) (e : Expense) :
  App.drop_participant pid acc e
  = acc ++ (if survives pid e then [without_shares_of pid e] else []).
Proof.
  unfold App.drop_participant, survives, without_shares_of.
  fold (shares_of_others pid e).
  destruct (String.eqb (payerId e) pid); simpl; [now rewrite app_nil_r|].
  destruct (length (shares_of_others pid e) =? 0)%nat; simpl; auto.
  now rewrite app_nil_r.
Qed.

Lemma drop_participant_fold (es acc : list Expense) :
  fold_left (App.drop_participant pid) es acc
  = acc ++ map (without_shares_of pid) (filter (survives pid) es).
Proof.
  revert acc; induction es as [|e t IH]; intro acc; cbn [fold_left filter].
  - simpl. now rewrite app_nil_r.
  - rewrite IH, drop_participant_step, <- app_assoc.
    destruct (survives pid e); reflexivity.
Qed.

Lemma removed_expenses (st : App.State) :
  App.expenses (App.handleRemoveParticipant pid st)
  = map (without_shares_of pid) (filter (survives pid) (App.expenses st)).
Proof. simpl. now rewrite drop_participant_fold. Qed.

Lemma shares_of_others_all (e : Expense) :
  (forall s, In s (shares e) -> participantId s <> pid) ->
  shares_of_others pid e = shares e.
Proof.
  intro H. unfold shares_of_others.
  induction (shares e) as [|s t IH]; simpl; auto.
  destruct (String.eqb_spec (participantId s) pid) as [Heq|Hne]; simpl.
  - exfalso. apply (H s); simpl; auto.
  - f_equal. apply IH. intros x Hx. apply H. now right.
Qed.


Lemma survivor_known (participants : list Participant) (e : Expense) :
  survives pid e = true -> known_ids participants e ->
  known_ids (filter (fun p => negb (String.eqb (id p) pid)) participants)
            (without_shares_of pid e).
Proof.
  intros Hs [Hp Hsh]. unfold survives in Hs. apply andb_true_iff in Hs.
  destruct Hs as [Hpayer _]. apply negb_true_iff in Hpayer.
  assert (G : forall k, In k (map id participants) -> String.eqb k pid = false ->
                        In k (map id (filter (fun p => negb (String.eqb (id p) pid))
                                             participants))).
  { intros k Hk Hne. apply in_map_iff in Hk. destruct Hk as (p & <- & Hin).
    apply in_map. apply filter_In. split; auto. now rewrite Hne. }
  split; simpl.
  - now apply G.
  - intros s Hs. unfold shares_of_others in Hs. apply filter_In in Hs.
    destruct Hs as [Hs Hne]. apply negb_true_iff in Hne. apply G; auto.
Qed.

End RemovalFacts.

(** X21. [handleRemoveParticipant] leaves no trace of the participant. The
    participants kept are those with another id; the expenses kept are those
    not paid by the participant that keep a share of somebody else, in
    order, with the participant's shares taken out; no expense kept names
    the participant or is without shares; an expense that did not name the
    participant and had shares is kept as it was; expenses that named
    participants only still do; the two counters are as before. *)
Theorem removed_participant_leaves_no_trace (pid : string) (st : App.State) :
  let st' := App.handleRemoveParticipant pid st in
  App.expenses st' = map (without_shares_of pid) (filter (survives pid) (App.expenses st))
  /\ (forall p, In p (App.participants st') <-> In p (App.participants st) /\ id p <> pid)
  /\ (forall e, In e (App.expenses st') ->
        payerId e <> pid /\ shares e <> []
        /\ forall s, In s (shares e) -> participantId s <> pid)
  /\ (forall e, In e (App.expenses st) ->
        payerId e <> pid -> shares e <> [] ->
        (forall s, In s (shares e) -> participantId s <> pid) ->
        In e (App.expenses st'))
  /\ ((forall e, In e (App.expenses st) -> known_ids (App.participants st) e) ->
      forall e, In e (App.expenses st') -> known_ids (App.participants st') e)
  /\ App.participantCounter st' = App.participantCounter st
  /\ App.expenseCounter st' = App.expenseCounter st.
Proof.
  intro st'. unfold st'. rewrite removed_expenses.
  split; [reflexivity|].
  split; [|split; [|split; [|split; [|split; reflexivity]]]].
  - intro p. simpl. rewrite filter_In. split; intros [H1 H2]; split; auto.
    + apply negb_true_iff in H2. intro Heq. rewrite Heq, String.eqb_refl in H2. discriminate.
    + apply negb_true_iff. now apply String.eqb_neq.
  - intros e He. apply in_map_iff in He. destruct He as (x & <- & Hx).
    apply filter_In in Hx. destruct Hx as [_ Hs].
    unfold survives in Hs. apply andb_true_iff in Hs. destruct Hs as [H1 H2].
    apply negb_true_iff in H1, H2. simpl. split; [|split].
    + now apply String.eqb_neq.
    + intro Hnil. rewrite Hnil in H2. discriminate.
    + intros s Hs. unfold shares_of_others in Hs. apply filter_In in Hs.
      destruct Hs as [_ Hs]. apply negb_true_iff in Hs. now apply String.eqb_neq.
  - intros e He Hp Hne Hsh. apply in_map_iff. exists e. split.
    + unfold without_shares_of. rewrite shares_of_others_all by exact Hsh.
      now destruct e.
    + apply filter_In. split; auto. unfold survives.
      rewrite shares_of_others_all by exact Hsh.
      apply String.eqb_neq in Hp. rewrite Hp. simpl.
      destruct (shares e); [congruence|reflexivity].
  - intros Hk e He. apply in_map_iff in He. destruct He as (x & <- & Hx).
    apply filter_In in Hx. destruct Hx as [Hx Hs]. simpl.
    apply survivor_known; auto.
Qed.

Section DiscrepancyFacts.


Lemma filter_all (A : Type) (f : A -> bool) (l : list A) :
  (forall x, In x l -> f x = true) -> filter f l = l.
Proof.
  induction l as [|x t IH]; simpl; intro H; auto.
  rewrite (H x) by now left. f_equal. apply IH. intros y Hy. apply H. now right.
Qed.


End DiscrepancyFacts.



Section FindFacts.

Lemma find_filter_other (pid other : string) (l : list Participant) :
  other <> pid ->
  find (fun p => String.eqb (id p) other)
       (filter (fun p => negb (String.eqb (id p) pid)) l)
  = find (fun p => String.eqb (id p) other) l.
Proof.
  intro Hne. induction l as [|p t IH]; simpl; auto.
  destruct (String.eqb_spec (id p) pid) as [Heq|Hp]; simpl.
  - destruct (String.eqb_spec (id p) other) as [Heq'|_]; [congruence|exact IH].
  - now rewrite IH.
Qed.

Lemma find_filter_removed (pid : string) (l : list Participant) :
  find (fun p => String.eqb (id p) pid)
       (filter (fun p => negb (String.eqb (id p) pid)) l) = None.
Proof.
  induction l as [|p t IH]; simpl; auto.
  destruct (String.eqb (id p) pid) eqn:E; simpl; auto.
  now rewrite E.
Qed.

Lemma find_unique (l : list Participant) (p : Participant) :
  NoDup (map id l) -> In p l ->
  find (fun q => String.eqb (id q) (id p)) l = Some p.
Proof.
  induction l as [|q t IH]; simpl; intros Hnd Hin; [contradiction|].
  inversion Hnd as [|? ? Hq Ht]; subst.
  destruct Hin as [->|Hin].
  - now rewrite String.eqb_refl.
  - destruct (String.eqb_spec (id q) (id p)) as [Heq|_].
    + exfalso. apply Hq. rewrite Heq. now apply in_map.
    + now apply IH.
Qed.

End FindFacts.

(** X23. [findParticipantName] after a removal: the id removed is shown as
    the text for an unknown participant, the names shown for the other ids
    are as before. An id that no participant carries gets that text, and
    with distinct ids a participant's id gets the participant's name. *)
Theorem removed_participant_is_unknown (pid : string) (st : App.State) :
  App.findParticipantName (App.handleRemoveParticipant pid st) pid = "不明"%string
  /\ (forall other, other <> pid ->
        App.findParticipantName (App.handleRemoveParticipant pid st) other
        = App.findParticipantName st other)
  /\ (forall other,
        (forall p, In p (App.participants st) -> id p <> other) ->
        App.findParticipantName st other = "不明"%string)
  /\ (NoDup (map id (App.participants st)) ->
      forall p, In p (App.participants st) ->
                App.findParticipantName st (id p) = name p).
Proof.
  unfold App.findParticipantName. simpl. split; [|split; [|split]].
  - now rewrite find_filter_removed.
  - intros other Hne. now rewrite find_filter_other.
  - intros other H.
    destruct (find (fun p => String.eqb (id p) other) (App.participants st)) as [p|] eqn:E;
      auto.
    apply find_some in E. destruct E as [Hin E]. apply String.eqb_eq in E.
    exfalso. now apply (H p).
  - intros Hnd p Hp. now rewrite find_unique.
Qed.

Section NewParticipantFacts.

Lemma calculateBalances_new_participant
      (participants : list Participant) (expenses : list Expense) (p : Participant) :
  ~ In (id p) (map id participants) ->
  calculateBalances (participants ++ [p]) expenses
  = calculateBalances participants expenses ++ [balance_of counted expenses p].
Proof.
  intro Hfresh. rewrite !calculateBalances_entries.
  rewrite fold_left_app. simpl. unfold register_participant at 1.
  rewrite ledger_set_fresh.
  - rewrite map_app. simpl. f_equal. f_equal.
    apply finalize_effect. intros key entry.
    destruct (expenses_effect_fields key expenses entry) as (_ & H2 & H3). auto.
  - intro Hin. apply registered_keys_subset in Hin. destruct Hin as [[]|Hin]. auto.
Qed.

Lemma counter_text_not_empty (prefix : string) (n : nat) :
  prefix <> ""%string -> (prefix ++ counter_text n)%string <> ""%string.
Proof.
  destruct prefix; [congruence|]. simpl. discriminate.
Qed.

End NewParticipantFacts.

(** X26. A participant added under an id that no participant and no expense
    carries gets a name that is not empty and a balance of zero at the end
    of the list, and changes no other balance. *)
Theorem new_participant_starts_at_zero
        (trim : string -> string) (name newId : string) (st : App.State) :
  ~ In newId (map id (App.participants st)) ->
  (forall e, In e (App.expenses st) ->
             payerId e <> newId /\ forall s, In s (shares e) -> participantId s <> newId) ->
  exists finalName,
    finalName <> ""%string
    /\ App.participants (App.handleParticipantSubmit trim name newId st)
       = App.participants st ++ [mkParticipant newId finalName]
    /\ App.balances (App.handleParticipantSubmit trim name newId st)
       = App.balances st
           ++ [mkCalculatedBalance (mkParticipant newId finalName) (Fin 0) (Fin 0) (Fin 0)].
Proof.
  intros Hfresh Hnot.
  set (finalName := if negb (String.eqb (trim name) "")
                    then trim name
                    else ("参加者" ++ counter_text (App.participantCounter st))%string).
  exists finalName. split; [|split].
  - unfold finalName. destruct (String.eqb_spec (trim name) ""%string) as [E|E];
      cbn [negb].
    + apply counter_text_not_empty. discriminate.
    + exact E.
  - reflexivity.
  - unfold App.balances. simpl. fold finalName.
    rewrite calculateBalances_new_participant by exact Hfresh.
    f_equal. f_equal.
    destruct (@not_involved_nothing counted (App.expenses st)
                                    (mkParticipant newId finalName)) as [H1 H2].
    + exact Hnot.
    + now apply balance_of_nothing.
Qed.

Lemma new_participant_starts_at_zero_witness :
  exists finalName,
    finalName <> ""%string
    /\ App.balances (App.handleParticipantSubmit
                       FormSamples.no_trim "" "D"
                       (App.mkState [Samples.A; Samples.B; Samples.C] [Samples.dinner] 4 2))
       = App.balances (App.mkState [Samples.A; Samples.B; Samples.C] [Samples.dinner] 4 2)
           ++ [mkCalculatedBalance (mkParticipant "D" finalName) (Fin 0) (Fin 0) (Fin 0)].
Proof.
  destruct (@new_participant_starts_at_zero
              FormSamples.no_trim "" "D"
              (App.mkState [Samples.A; Samples.B; Samples.C] [Samples.dinner] 4 2))
    as (finalName & H1 & _ & H3).
  - simpl. intuition discriminate.
  - intros e [<-|[]]. split; [discriminate|].
    intros s [<-|[<-|[<-|[]]]]; discriminate.
  - exists finalName. split; [exact H1|exact H3].
Defined.



(** ** The expense that a form becomes *)

Section MapFacts.
Variable V : Type.
Implicit Types (m : list (string * V)).


Lemma Map_get_In key (value : V) m :
  NoDup (map fst m) -> In (key, value) m -> Map_get key m = Some value.
Proof.
  induction m as [|[k v] t IH]; simpl; intros Hnd Hin; [contradiction|].
  inversion Hnd as [|? ? Hk Ht]; subst.
  destruct Hin as [Heq|Hin].
  - inversion Heq; subst. now rewrite String.eqb_refl.
  - destruct (String.eqb_spec k key) as [->|Hne]; auto.
    exfalso. apply Hk. change key with (fst (key, value)). now apply in_map.
Qed.

Lemma Map_get_sublist (l m : list (string * V)) :
  NoDup (map fst m) -> (forall kv, In kv l -> In kv m) ->
  map (fun k => Map_get k m) (map fst l) = map (fun kv => Some (snd kv)) l.
Proof.
  intros Hnd Hin. rewrite map_map. apply map_ext_in. intros [k v] Hkv. simpl.
  apply Map_get_In; auto.
Qed.

End MapFacts.

Section ParsedFacts.
Variable trim : string -> string.
Variable Number : string -> number.






End ParsedFacts.

Section WholeFacts.

Lemma whole_finite (a : number) : whole a -> exists q, a = Fin q /\ 0 <= q.
Proof.
  intros (z & Hz & H). destruct a as [q| | |]; try contradiction.
  exists q. split; auto. simpl in H. rewrite H.
  change 0 with (inject_Z 0). now rewrite <- Zle_Qle.
Qed.




Lemma whole_values_nonneg (l : list number) :
  Forall whole l -> Forall (fun x => 0 <= x) (map Qvalue l).
Proof.
  intro H. rewrite Forall_map. eapply Forall_impl; [|exact H].
  intros a Ha. destruct (whole_finite Ha) as (q & -> & Hq). exact Hq.
Qed.


End WholeFacts.

Section FlexibleFacts.





End FlexibleFacts.

Section FixedFacts.







End FixedFacts.

Section AllocateFacts.



End AllocateFacts.

Section SubmissionFacts.
Variable trim : string -> string.
Variable Number : string -> number.

Lemma Math_round_Fin_inv (n : number) (a : Q) :
  Math_round n = Fin a -> exists z : Z, a = inject_Z z.
Proof.
  destruct n as [x| | |]; simpl; try discriminate.
  intro H. inversion H. eauto.
Qed.

Lemma strict_neq_false (x y : Q) :
  strict_neq (Fin x) (Fin y) = false -> x == y.
Proof.
  unfold strict_neq. intro H. apply negb_false_iff in H. now apply Qeqb_true.
Qed.

(** What [onSubmitExpense] has checked and made when it adds an expense. *)
Lemma submission_accepted (values : Form.ExpenseFormValues) (counter : nat) (newId : string)
      (e : Expense) (reset : Form.ExpenseFormValues) :
  App.submission trim Number values counter newId = App.Accepted e reset ->
  exists (az : Z) (m : list (string * number)) (title : string),
    (1 <= az)%Z
    /\ Math_round (Number (Form.amount values)) = Fin (inject_Z az)
    /\ Form.payerId values <> ""%string
    /\ filter Form.included (Form.shares values) <> []
    /\ App.allocate (Fin (inject_Z az))
                    (map (App.fixed_entry trim Number)
                         (filter Form.included (Form.shares values))) = inr m
    /\ (exists total, sum_numbers (Map_values m) = Fin total /\ total == inject_Z az)
    /\ title <> ""%string
    /\ e = mkExpense newId title (Fin (inject_Z az)) (Form.payerId values)
                     (map (fun share =>
                             mkExpenseShare (Form.participantId share)
                                            (allotted m (Form.participantId share)))
                          (filter Form.included (Form.shares values)))
    /\ reset = Form.mkExpenseFormValues
                 "" "" (Form.payerId values)
                 (map (fun share =>
                         Form.mkShareInput (Form.participantId share)
                                           (Form.included share) "")
                      (Form.shares values)).
Proof.
  unfold App.submission. cbv zeta.
  destruct (Math_round (Number (Form.amount values))) as [a| | |] eqn:Ea;
    cbn [Number_isFinite negb orb]; try discriminate.
  destruct (le (Fin a) (Fin 0)) eqn:Ele; [discriminate|].
  destruct (String.eqb_spec (Form.payerId values) ""%string) as [|Hpayer]; [discriminate|].
  destruct (length (filter Form.included (Form.shares values)) =? 0)%nat eqn:En;
    [discriminate|].
  destruct (App.allocate (Fin a) _) as [msg|m] eqn:Ealloc; [discriminate|].
  destruct (strict_neq (sum_numbers (Map_values m)) (Fin a)) eqn:Etotal; [discriminate|].
  intro H. inversion H as [[He Hreset]]. clear H.
  destruct (@Math_round_Fin_inv _ _ Ea) as (az & ->).
  simpl in Ele. apply Qleb_false in Ele.
  assert (Haz : (1 <= az)%Z).
  { change 0 with (inject_Z 0) in Ele. rewrite <- Zlt_Qlt in Ele. lia. }
  exists az, m.
  eexists. split; [exact Haz|]. split; [reflexivity|]. split; [exact Hpayer|].
  split.
  { intro Hnil. rewrite Hnil in En. discriminate En. }
  split; [exact Ealloc|]. split.
  { destruct (sum_numbers (Map_values m)) as [total| | |]; try discriminate Etotal.
    exists total. split; [reflexivity|]. now apply strict_neq_false. }
  split; [|split; reflexivity].
  destruct (String.eqb_spec (trim (Form.title values)) ""%string) as [E|E].
  - discriminate.
  - exact E.
Qed.


End SubmissionFacts.

Section AllottedFacts.




End AllottedFacts.

Section SplitFacts.
Variable trim : string -> string.
Variable Number : string -> number.


End SplitFacts.








Section ExpenseListFacts.

Lemma remove_expense_fresh (eid : string) (es : list Expense) :
  (forall x, In x es -> expense_id x <> eid) ->
  filter (fun expense => negb (String.eqb (expense_id expense) eid)) es = es.
Proof.
  intro H. apply filter_all. intros x Hx.
  apply negb_true_iff. apply String.eqb_neq. now apply H.
Qed.

End ExpenseListFacts.

(** X24. [onSubmitExpense] either rejects the form and leaves the state as
    it is, or puts the new expense in front of the others, with the id
    drawn for it, and moves the expense counter by one. When no expense
    carried that id, [handleRemoveExpense] on it gives back the expenses
    that were there before. *)
Theorem added_expense_can_be_removed_again
        (trim : string -> string) (Number : string -> number)
        (values : Form.ExpenseFormValues) (newId : string) (st : App.State) :
  (forall x, In x (App.expenses st) -> expense_id x <> newId) ->
  match App.onSubmitExpense trim Number values newId st with
  | (st1, App.Rejected _ _) => st1 = st
  | (st1, App.Accepted e _) =>
      App.expenses st1 = e :: App.expenses st
      /\ expense_id e = newId
      /\ App.participants st1 = App.participants st
      /\ App.participantCounter st1 = App.participantCounter st
      /\ App.expenseCounter st1 = S (App.expenseCounter st)
      /\ App.expenses (App.handleRemoveExpense newId st1) = App.expenses st
      /\ App.participants (App.handleRemoveExpense newId st1) = App.participants st
  end.
Proof.
  intro Hfresh. unfold App.onSubmitExpense.
  destruct (App.submission trim Number values (App.expenseCounter st) newId)
    as [field message|e reset] eqn:Es; [reflexivity|].
  destruct (@submission_accepted _ _ _ _ _ _ _ Es)
    as (az & m & title & _ & _ & _ & _ & _ & _ & _ & He & _).
  assert (Hid : expense_id e = newId) by now rewrite He.
  simpl. repeat (split; [reflexivity || exact Hid|]). split; [|reflexivity].
  rewrite Hid, String.eqb_refl. simpl. now apply remove_expense_fresh.
Qed.

Lemma added_expense_can_be_removed_again_witness :
  App.expenses
    (App.handleRemoveExpense
       "e2"
       (fst (App.onSubmitExpense FormSamples.no_trim FormSamples.Number_of_digits
                                 FormSamples.lunch "e2"
                                 (App.mkState [Samples.A; Samples.B; Samples.C]
                                              [Samples.dinner] 4 2))))
  = [Samples.dinner].
Proof.
  pose proof (@added_expense_can_be_removed_again
                FormSamples.no_trim FormSamples.Number_of_digits FormSamples.lunch "e2"
                (App.mkState [Samples.A; Samples.B; Samples.C] [Samples.dinner] 4 2)) as H.
  destruct (App.onSubmitExpense FormSamples.no_trim FormSamples.Number_of_digits
                                FormSamples.lunch "e2"
                                (App.mkState [Samples.A; Samples.B; Samples.C]
                                             [Samples.dinner] 4 2))
    as [st1 [field message|e reset]] eqn:E.
  - vm_compute in E. discriminate E.
  - apply H. intros x [<-|[]]. discriminate.
Defined.

(** ** Signs and whole numbers of the balances *)

Section SignFacts.

Lemma never_negative_add (a b : number) :
  never_negative a -> never_negative b -> never_negative (add a b).
Proof.
  intros [->|[->|(x & -> & Hx)]] [->|[->|(y & -> & Hy)]]; simpl;
    try (now left); try (right; now left).
  right. right. exists (x + y). split; [reflexivity|lra].
Qed.

Lemma never_negative_fold (l : list number) (a : number) :
  never_negative a -> Forall never_negative l -> never_negative (fold_left add l a).
Proof.
  intros Ha Hl. revert a Ha. induction Hl as [|x t Hx _ IH]; intros a Ha; simpl; auto.
  apply IH. now apply never_negative_add.
Qed.

Lemma counted_never_negative (e : Expense) :
  counted e = true -> never_negative (expense_amount e).
Proof.
  unfold counted. destruct (expense_amount e) as [q| | |]; simpl; try discriminate.
  - intro H. apply negb_true_iff in H. apply Qleb_false in H.
    right. right. exists q. split; [reflexivity|lra].
  - intros _. right. now left.
  - intros _. now left.
Qed.

Lemma Math_round_never_negative (a : number) :
  never_negative a -> never_negative (Math_round a).
Proof.
  intros [->|[->|(x & -> & Hx)]]; cbn [Math_round]; [now left|right; now left|].
  right. right. eexists. split; [reflexivity|].
  change 0 with (inject_Z 0). rewrite <- Zle_Qle.
  assert (H : Qfloor 0 = 0%Z) by reflexivity. rewrite <- H.
  apply Qfloor_resp_le. lra.
Qed.

Lemma Math_round_rounded (a : number) : rounded (Math_round a).
Proof.
  destruct a as [x| | |]; simpl; [right; eauto|left|left|left]; reflexivity.
Qed.

End SignFacts.

(** X27. The balances are whole numbers and nobody has paid a negative
    amount. In every balance that [calculateBalances] returns, [paid] is
    never negative (it is [NaN] or [Infinity] or a finite value of at least
    zero), [paid] and [shouldPay] are integers whenever they are finite,
    [diff] is their difference, and a finite [diff] is an integer. *)
Theorem balances_are_whole_and_paid_is_never_negative
        (participants : list Participant) (expenses : list Expense) :
  Forall (fun b =>
            never_negative (paid b)
            /\ rounded (paid b)
            /\ rounded (shouldPay b)
            /\ diff b = sub (paid b) (shouldPay b)
            /\ (Number_isFinite (diff b) = true ->
                exists z : Z, num_eq (diff b) (Fin (inject_Z z))))
         (calculateBalances participants expenses).
Proof.
  apply Forall_forall.
  intros b Hb. rewrite calculateBalances_entries in Hb.
  apply in_map_iff in Hb. destruct Hb as ([k v] & <- & Hin).
  cbn [fst snd].
  set (entry := expenses_effect expenses k v).
  unfold finalize. cbn [paid shouldPay diff].
  assert (Hpaid : never_negative (entry_paid entry)).
  { unfold entry.
    destruct (@registered_entries participants k v Hin) as (p & _ & _ & ->).
    destruct (expenses_effect_fields k expenses (new_entry p)) as (_ & -> & _).
    apply never_negative_fold.
    - right. right. exists 0. split; [reflexivity|lra].
    - unfold paid_amounts. rewrite Forall_map. apply Forall_forall.
      intros e He. apply filter_In in He. destruct He as [_ He].
      apply andb_true_iff in He. destruct He as [He _].
      now apply counted_never_negative. }
  split; [now apply Math_round_never_negative|].
  split; [apply Math_round_rounded|]. split; [apply Math_round_rounded|].
  split; [reflexivity|].
  destruct (Math_round_rounded (entry_paid entry)) as [H1|(z1 & ->)];
    destruct (Math_round_rounded (entry_shouldPay entry)) as [H2|(z2 & ->)].
  - destruct (Math_round (entry_paid entry)); try discriminate H1;
      destruct (Math_round (entry_shouldPay entry)); try discriminate H2;
      cbn [sub add opp Number_isFinite]; discriminate.
  - destruct (Math_round (entry_paid entry)); try discriminate H1;
      cbn [sub add opp Number_isFinite]; discriminate.
  - destruct (Math_round (entry_shouldPay entry)); try discriminate H2;
      cbn [sub add opp Number_isFinite]; discriminate.
  - intros _. exists (z1 - z2)%Z. cbn [sub add opp num_eq]. unfold Z.sub.
    rewrite inject_Z_plus, inject_Z_opp. reflexivity.
Qed.
